(** * Secret synchronisation pipeline of app/api/github-secrets/route.ts

    A shallow embedding of the route handler: the env-file parser
    [parseEnvContent], the key discovery [getPublicKey], the per-secret
    writer [setSecret] and the handler [POST], followed by the properties
    of the pipeline.

    JavaScript strings are modelled as [string]; a character stands for a
    UTF-16 code unit below 256.  Effects (outbound [fetch] calls, the
    libsodium sealed box, exceptions) are modelled by a state-and-exception
    monad over a log of events, the answers of the outside world being
    given by a [world] of oracles that may depend on the whole history. *)

From Stdlib Require Import String Ascii List ZArith NArith Bool Lia Permutation.
Import ListNotations.
Open Scope string_scope.

(** ** JavaScript strings *)

Module JsString.

Definition nl : string := String "010"%char EmptyString.
Definition dq : string := String "034"%char EmptyString.
Definition sq : string := String "039"%char EmptyString.
Definition bs : string := String "092"%char EmptyString.

(** White space and line terminators removed by [String.prototype.trim]
    (tab, LF, VT, FF, CR, space, NBSP). *)
Definition is_ws (c : ascii) : bool :=
  let n := nat_of_ascii c in
  ((9 <=? n) && (n <=? 13) || (n =? 32) || (n =? 160))%nat.

(** Line terminators: the characters a regular expression's [.] rejects. *)
Definition is_line_terminator (c : ascii) : bool :=
  let n := nat_of_ascii c in ((n =? 10) || (n =? 13))%nat.

Definition is_empty (s : string) : bool :=
  match s with EmptyString => true | String _ _ => false end.

Fixpoint trimStart (s : string) : string :=
  match s with
  | EmptyString => EmptyString
  | String c r => if is_ws c then trimStart r else s
  end.

Fixpoint trimEnd (s : string) : string :=
  match s with
  | EmptyString => EmptyString
  | String c r =>
      let r' := trimEnd r in
      if is_ws c && is_empty r' then EmptyString else String c r'
  end.

(** [s.trim()] *)
Definition trim (s : string) : string := trimEnd (trimStart s).

(** [s.startsWith(p)] *)
Fixpoint startsWith (p s : string) : bool :=
  match p, s with
  | EmptyString, _ => true
  | String _ _, EmptyString => false
  | String a p', String b s' => Ascii.eqb a b && startsWith p' s'
  end.

(** [s.endsWith(p)]: some suffix of [s] is [p]. *)
Fixpoint endsWith (p s : string) : bool :=
  String.eqb s p
  || match s with
     | EmptyString => false
     | String _ r => endsWith p r
     end.

(** [s.substring(1)] *)
Definition substring1 (s : string) : string :=
  match s with EmptyString => EmptyString | String _ r => r end.

(** [s.slice(0, -1)] *)
Fixpoint slice_0_m1 (s : string) : string :=
  match s with
  | EmptyString => EmptyString
  | String c EmptyString => EmptyString
  | String c r => String c (slice_0_m1 r)
  end.

(** [s.split(sep)] for a one-character separator: never the empty list. *)
Fixpoint split (sep : ascii) (s : string) : list string :=
  match s with
  | EmptyString => [EmptyString]
  | String c r =>
      if Ascii.eqb c sep then EmptyString :: split sep r
      else match split sep r with
           | [] => [String c EmptyString]
           | h :: t => String c h :: t
           end
  end.

(** The longest prefix of [s] whose characters satisfy [p], and the rest. *)
Fixpoint span (p : ascii -> bool) (s : string) : string * string :=
  match s with
  | EmptyString => (EmptyString, EmptyString)
  | String c r =>
      if p c then let '(a, b) := span p r in (String c a, b)
      else (EmptyString, s)
  end.

Definition all_chars (p : ascii -> bool) (s : string) : bool :=
  is_empty (snd (span p s)).

End JsString.
Import JsString.

(** ** The regular expressions of the parser *)

(** The character class [[A-Za-z0-9_]]. *)
Definition is_key_char (c : ascii) : bool :=
  let n := nat_of_ascii c in
  ((65 <=? n) && (n <=? 90) || (97 <=? n) && (n <=? 122)
   || (48 <=? n) && (n <=? 57) || (n =? 95))%nat.

(** The match of a line against the pattern KEY=VALUE of the parser
    (anchored at the start, one or more characters of the class, the sign
    [=], then any characters): the two groups, when the line matches. The
    class does not contain [=], so the first group is the longest prefix
    in the class; the second group stops at the first line terminator, as
    the dot of a regular expression does. *)
Definition match_key_value (line : string) : option (string * string) :=
  let '(k, rest) := span is_key_char line in
  match k, rest with
  | String _ _, String "="%char after =>
      Some (k, fst (span (fun c => negb (is_line_terminator c)) after))
  | _, _ => None
  end.

Definition is_quote (c : ascii) : bool :=
  (Ascii.eqb c "034" || Ascii.eqb c "039")%char.

(** The last character of a string and what precedes it. *)
Fixpoint unsnoc (s : string) : option (string * ascii) :=
  match s with
  | EmptyString => None
  | String c r =>
      match unsnoc r with
      | None => Some (EmptyString, c)
      | Some (i, l) => Some (String c i, l)
      end
  end.

(** The replacement applied to a single-line value: when the whole value
    is a quote character (double or single), an interior without line
    terminator and a quote character (double or single, not necessarily
    the same), the value becomes the interior; otherwise it is unchanged. *)
Definition strip_quotes (v : string) : string :=
  match v with
  | String c r =>
      match unsnoc r with
      | Some (inner, l) =>
          if is_quote c && is_quote l
             && all_chars (fun x => negb (is_line_terminator x)) inner
          then inner else v
      | None => v
      end
  | EmptyString => v
  end.

(** ** JavaScript objects used as maps

    [Record<string, string>] created by the literal [{}]: the own
    properties in creation order. *)

Definition object : Type := list (string * string).

Definition empty_object : object := [].

(** An own data property is created at the end, or updated in place. *)
Fixpoint define_own (o : object) (k v : string) : object :=
  match o with
  | [] => [(k, v)]
  | (k', v') :: r =>
      if String.eqb k' k then (k, v) :: r else (k', v') :: define_own r k v
  end.

(** [o[k] = v] with [v] a string. An object made by [{}] inherits the
    accessor [Object.prototype.__proto__]; an assignment to that name runs
    its setter, which ignores a value that is neither an object nor null,
    so no own property is created. Every other name of [Object.prototype]
    is a writable data property and the assignment creates an own
    property. *)
Definition obj_set (o : object) (k v : string) : object :=
  if String.eqb k "__proto__" then o else define_own o k v.

(** The own property [k] of [o]. *)
Fixpoint obj_get (o : object) (k : string) : option string :=
  match o with
  | [] => None
  | (k', v') :: r => if String.eqb k' k then Some v' else obj_get r k
  end.

Definition is_digit (c : ascii) : bool :=
  let n := nat_of_ascii c in ((48 <=? n) && (n <=? 57))%nat.

Fixpoint digits_value (acc : N) (s : string) : N :=
  match s with
  | EmptyString => acc
  | String c r => digits_value (acc * 10 + (N_of_ascii c - 48))%N r
  end.

(** An array index: a canonical numeric string (no sign, no leading zero)
    whose value is at most 2^32 - 2. *)
Definition array_index (k : string) : option N :=
  match k with
  | EmptyString => None
  | String c r =>
      if all_chars is_digit k && (negb (Ascii.eqb c "0") || is_empty r)
         && (String.length k <=? 10)%nat
      then let n := digits_value 0 k in
           if (n <=? 4294967294)%N then Some n else None
      else None
  end.

Definition is_index_entry (e : string * string) : bool :=
  match array_index (fst e) with Some _ => true | None => false end.

Definition index_of_entry (e : string * string) : N :=
  match array_index (fst e) with Some n => n | None => 0%N end.

Fixpoint insert_by_index (e : string * string) (l : list (string * string)) :=
  match l with
  | [] => [e]
  | e' :: r =>
      if (index_of_entry e <=? index_of_entry e')%N then e :: l
      else e' :: insert_by_index e r
  end.

Definition sort_by_index (l : list (string * string)) :=
  fold_right insert_by_index [] l.

(** [Object.entries(o)]: the array-index keys in ascending numeric order,
    then the other keys in creation order. *)
Definition Object_entries (o : object) : list (string * string) :=
  sort_by_index (filter is_index_entry o)
  ++ filter (fun e => negb (is_index_entry e)) o.

(** ** parseEnvContent *)

Record parser_state := {
  result : object;
  currentKey : string;
  inValue : bool;
  value : string
}.

Definition initial_state : parser_state :=
  {| result := empty_object; currentKey := EmptyString;
     inValue := false; value := EmptyString |}.

(** One iteration of the loop over [lines]. *)
Definition parse_line (st : parser_state) (raw : string) : parser_state :=
  let line := trim raw in
  if is_empty line || startsWith "#" line then st
  else if negb (inValue st) then
    match match_key_value line with
    | Some (k, v) =>
        if startsWith dq v && negb (endsWith dq v)
           && negb (endsWith (bs ++ dq) v)
        then {| result := result st; currentKey := k;
                inValue := true; value := substring1 v |}
        else {| result := obj_set (result st) k (strip_quotes v);
                currentKey := EmptyString; inValue := false;
                value := EmptyString |}
    | None => st
    end
  else
    if endsWith dq line && negb (endsWith (bs ++ dq) line)
    then {| result :=
              obj_set (result st) (currentKey st)
                      (value st ++ nl ++ slice_0_m1 line);
            currentKey := EmptyString; inValue := false;
            value := EmptyString |}
    else {| result := result st; currentKey := currentKey st;
            inValue := true; value := value st ++ nl ++ line |}.

(** The statement after the loop: an unterminated value is stored. *)
Definition finish (st : parser_state) : object :=
  if inValue st && negb (is_empty (currentKey st))
  then obj_set (result st) (currentKey st) (value st)
  else result st.

Definition parseEnvContent (envContent : string) : object :=
  finish (fold_left parse_line (split "010" envContent) initial_state).

(** *** The assignments of a run of the parser *)

(** The assignment [result[k] = v] executed while a line is processed, if
    there is one. *)
Definition line_assignment (st : parser_state) (raw : string)
  : option (string * string) :=
  let line := trim raw in
  if is_empty line || startsWith "#" line then None
  else if negb (inValue st) then
    match match_key_value line with
    | Some (k, v) =>
        if startsWith dq v && negb (endsWith dq v)
           && negb (endsWith (bs ++ dq) v)
        then None else Some (k, strip_quotes v)
    | None => None
    end
  else
    if endsWith dq line && negb (endsWith (bs ++ dq) line)
    then Some (currentKey st, value st ++ nl ++ slice_0_m1 line)
    else None.

(** The assignment executed after the loop, if there is one. *)
Definition final_assignment (st : parser_state) : option (string * string) :=
  if inValue st && negb (is_empty (currentKey st))
  then Some (currentKey st, value st) else None.

Definition cons_option {A} (x : option A) (l : list A) : list A :=
  match x with Some a => a :: l | None => l end.

(** The assignments executed by the parser on the remaining lines, in
    order. *)
Fixpoint assignments (lines : list string) (st : parser_state)
  : list (string * string) :=
  match lines with
  | [] => cons_option (final_assignment st) []
  | l :: rest =>
      cons_option (line_assignment st l) (assignments rest (parse_line st l))
  end.

Definition assign (o : object) (kv : string * string) : object :=
  obj_set o (fst kv) (snd kv).

(** The value of the last pair of [cs] whose key is [k]. *)
Definition last_value (k : string) (cs : list (string * string))
  : option string :=
  fold_left (fun acc kv => if String.eqb (fst kv) k then Some (snd kv) else acc)
            cs None.

(** ** Exceptions, events and the outside world *)

(** A thrown value: an instance of [Error] with its message, or anything
    else. *)
Inductive thrown : Type :=
| ThrownError (message : string)
| ThrownOther.

(** [error instanceof Error ? error.message : 'Unknown error'] *)
Definition error_message (e : thrown) : string :=
  match e with
  | ThrownError m => m
  | ThrownOther => "Unknown error"
  end.

Inductive outcome (A : Type) : Type :=
| Returned (a : A)
| Thrown (e : thrown).
Arguments Returned {A} a.
Arguments Thrown {A} e.

Inductive http_method : Type := GET | PUT.

(** The object serialised into the body of a write request. A field that
    is [None] is absent from the JSON text. *)
Record secret_payload := {
  encrypted_value : string;
  key_id : option string;
  visibility : option string
}.

Record request := {
  url : string;
  method : http_method;
  headers : list (string * string);
  body : option secret_payload
}.

(** What [getPublicKey] reads of a parsed JSON body: its fields [key] and
    [key_id] ([None] for [undefined]), or the value [null]. *)
Inductive json_value : Type :=
| JsonNull
| JsonObject (j_key j_key_id : option string).

(** A response of [fetch]: reading the body as text or as JSON may fail. *)
Record response := {
  status : Z;
  statusText : string;
  text : outcome string;
  json : outcome json_value
}.

(** The result of key discovery; [None] is JavaScript's [undefined]. *)
Record key_info := {
  publicKey : option string;
  keyId : option string;
  isOrg : bool
}.

(** What a run leaves in its log: the outbound requests, in order, and the
    calls of the handler's own functions, so that a run shows which of
    them were invoked, and on what. *)
Inductive event : Type :=
| EvFetch (req : request)
| EvGetPublicKey (repo : string)
| EvParseEnvContent (envText : string)
| EvSetSecret (key : string)
| EvEncryptValue (plaintext : string) (recipient : option string).

(** The outside world: the answer to an outbound request and the result
    of the sealed-box encryption (randomised, hence not a function of its
    arguments alone), both as functions of the history so far. *)
Record world := {
  fetch : list event -> request -> outcome response;
  sodium_seal : list event -> string -> option string -> outcome string
}.

(** Computations that log events and may throw. *)
Definition M (A : Type) : Type := list event -> outcome A * list event.

Definition ret {A} (a : A) : M A := fun log => (Returned a, log).

Definition throw {A} (e : thrown) : M A := fun log => (Thrown e, log).

Definition bind {A B} (c : M A) (k : A -> M B) : M B :=
  fun log =>
    match c log with
    | (Returned a, log') => k a log'
    | (Thrown e, log') => (Thrown e, log')
    end.

(** [try { c } catch (error) { h error }] *)
Definition try_catch {A} (c : M A) (h : thrown -> M A) : M A :=
  fun log =>
    match c log with
    | (Returned a, log') => (Returned a, log')
    | (Thrown e, log') => h e log'
    end.

Definition emit (e : event) : M unit := fun log => (Returned tt, (log ++ [e])%list).

(** [await p] for a promise that is settled with [o]. *)
Definition await {A} (o : outcome A) : M A := fun log => (o, log).

Declare Scope js_scope.
Delimit Scope js_scope with js.
Notation "x <- c ;; k" := (bind c (fun x => k))
  (at level 61, c at next level, right associativity) : js_scope.
Notation "' pat <- c ;; k" :=
  (bind c (fun x => match x with pat => k end))
  (at level 61, pat pattern, c at next level, right associativity) : js_scope.
Notation "c ;; k" := (bind c (fun _ => k))
  (at level 61, right associativity) : js_scope.
Open Scope js_scope.

(** [await fetch(url, init)] *)
Definition do_fetch (w : world) (req : request) : M response :=
  fun log => (fetch w log req, (log ++ [EvFetch req])%list).

(** ** getPublicKey *)

Definition api : string := "https://api.github.com".

Definition key_headers (pat : string) : list (string * string) :=
  [("Authorization", "token " ++ pat);
   ("Accept", "application/vnd.github.v3+json")].

Definition repo_key_request (repo pat : string) : request :=
  {| url := api ++ "/repos/" ++ repo ++ "/actions/secrets/public-key";
     method := GET; headers := key_headers pat; body := None |}.

Definition org_key_request (org pat : string) : request :=
  {| url := api ++ "/orgs/" ++ org ++ "/actions/secrets/public-key";
     method := GET; headers := key_headers pat; body := None |}.

(** The first component of [repo.split('/')]. *)
Definition org_of (repo : string) : string :=
  hd EmptyString (split "/" repo).

(** [{ publicKey: data.key, keyId: data.key_id, isOrg }]; reading a
    property of [null] throws a TypeError. *)
Definition key_info_of (data : json_value) (org : bool) : M key_info :=
  match data with
  | JsonNull =>
      throw (ThrownError "Cannot read properties of null (reading 'key')")
  | JsonObject k i => ret {| publicKey := k; keyId := i; isOrg := org |}
  end.

Definition getPublicKey (w : world) (repo pat : string) : M key_info :=
  emit (EvGetPublicKey repo) ;;
  let org := org_of repo in
  response <- do_fetch w (repo_key_request repo pat) ;;
  data <- await (json response) ;;
  if (status response =? 404)%Z then
    response <- do_fetch w (org_key_request org pat) ;;
    data <- await (json response) ;;
    if (status response =? 404)%Z then
      throw (ThrownError "Neither repository nor organization public key found")
    else key_info_of data true
  else key_info_of data false.

(** ** encryptValue and setSecret *)

(** The libsodium pipeline (readiness, base64 decoding of the recipient
    key, [crypto_box_seal], base64 encoding) is the world's. *)
Definition encryptValue (w : world) (plaintext : string)
    (recipient : option string) : M string :=
  fun log =>
    (sodium_seal w log plaintext recipient,
     (log ++ [EvEncryptValue plaintext recipient])%list).

Record set_secret_result := {
  ss_status : Z;
  ss_statusText : string;
  ss_success : bool;
  ss_response : string
}.

Definition secret_url (repo key : string) (org : bool) : string :=
  if org then api ++ "/orgs/" ++ org_of repo ++ "/actions/secrets/" ++ key
  else api ++ "/repos/" ++ repo ++ "/actions/secrets/" ++ key.

Definition put_headers (pat : string) : list (string * string) :=
  [("Authorization", "token " ++ pat);
   ("Accept", "application/vnd.github.v3+json");
   ("Content-Type", "application/json")].

(** The write request for one secret: the URL and the body depend on the
    scope of the key. *)
Definition write_request (repo pat key : string) (keyInfo : key_info)
    (encryptedValue : string) : request :=
  let url := secret_url repo key (isOrg keyInfo) in
  let requestBody :=
    {| encrypted_value := encryptedValue;
       key_id := keyId keyInfo;
       visibility := if isOrg keyInfo then Some "all" else None |} in
  {| url := url; method := PUT; headers := put_headers pat;
     body := Some requestBody |}.

Definition setSecret (w : world) (key value repo pat : string)
    (keyInfo : key_info) : M set_secret_result :=
  emit (EvSetSecret key) ;;
  encryptedValue <- encryptValue w value (publicKey keyInfo) ;;
  response <- do_fetch w (write_request repo pat key keyInfo encryptedValue) ;;
  responseBody <- try_catch (await (text response))
                    (fun _ => ret "Failed to read response body") ;;
  ret {| ss_status := status response;
         ss_statusText := statusText response;
         ss_success := (status response =? 201)%Z || (status response =? 204)%Z;
         ss_response := responseBody |}.

(** ** POST *)

(** The fields of the form; [form_env] is the text of the uploaded file,
    or the string itself. [None] is a field that is absent. *)
Record form_data := {
  form_repo : option string;
  form_pat : option string;
  form_env : option string
}.

(** The incoming request: its form, when it can be decoded. *)
Record next_request := { formData : outcome form_data }.

(** [!x] for a form field: absent or the empty string. *)
Definition missing (x : option string) : bool :=
  match x with None => true | Some s => is_empty s end.

Definition field (x : option string) : string :=
  match x with None => EmptyString | Some s => s end.

Definition parseFormData (req : next_request) : M (string * string * string) :=
  form <- await (formData req) ;;
  if missing (form_repo form) || missing (form_pat form)
     || missing (form_env form)
  then throw (ThrownError "Missing required parameters: repo, pat, or env")
  else ret (field (form_repo form), field (form_pat form),
            field (form_env form)).

(** An element of the array [results]. *)
Record result_entry := {
  r_key : string;
  r_success : bool;
  r_status : option Z;
  r_statusText : option string;
  r_response : option string;
  r_error : option string
}.

(** The three arrays filled by the loop over the secrets. *)
Record loop_state := {
  results : list result_entry;
  failedSecrets : list string;
  successSecrets : list string
}.

Definition initial_loop_state : loop_state :=
  {| results := []; failedSecrets := []; successSecrets := [] |}.

(** The body of the loop over [Object.entries(secrets)]. *)
Definition process_secret (w : world) (repo pat : string) (keyInfo : key_info)
    (acc : loop_state) (entry : string * string) : M loop_state :=
  let '(key, value) := entry in
  try_catch
    (result <- setSecret w key value repo pat keyInfo ;;
     let failed :=
       if negb (ss_success result) then (failedSecrets acc ++ [key])%list
       else failedSecrets acc in
     let succeeded :=
       if negb (ss_success result) then successSecrets acc
       else (successSecrets acc ++ [key])%list in
     ret {| results :=
              (results acc ++
               [{| r_key := key; r_success := ss_success result;
                   r_status := Some (ss_status result);
                   r_statusText := Some (ss_statusText result);
                   r_response := Some (ss_response result);
                   r_error := None |}])%list;
            failedSecrets := failed;
            successSecrets := succeeded |})
    (fun error =>
       ret {| results :=
                (results acc ++
                 [{| r_key := key; r_success := false;
                     r_status := None; r_statusText := None;
                     r_response := None;
                     r_error := Some (error_message error) |}])%list;
              failedSecrets := (failedSecrets acc ++ [key])%list;
              successSecrets := successSecrets acc |}).

Fixpoint process_secrets (w : world) (repo pat : string) (keyInfo : key_info)
    (entries : list (string * string)) (acc : loop_state) : M loop_state :=
  match entries with
  | [] => ret acc
  | entry :: rest =>
      acc' <- process_secret w repo pat keyInfo acc entry ;;
      process_secrets w repo pat keyInfo rest acc'
  end.

(** The JSON body of the handler's response. *)
Record api_result := {
  success : bool;
  variables : list string
}.

Record next_response := {
  http_status : Z;
  payload : api_result
}.

Definition probe_request (repo pat : string) : request :=
  {| url := api ++ "/repos/" ++ repo; method := GET;
     headers := [("Authorization", "token " ++ pat)]; body := None |}.

(** The response built after the loop. *)
Definition report (acc : loop_state) : next_response :=
  if (List.length (failedSecrets acc) =? 0)%nat
  then {| http_status := 200;
          payload := {| success := true; variables := successSecrets acc |} |}
  else {| http_status := 200;
          payload := {| success := false; variables := failedSecrets acc |} |}.

(** The response to an inaccessible repository. *)
Definition access_error : next_response :=
  {| http_status := 404;
     payload := {| success := false;
                   variables := ["Repository access error"] |} |}.

(** The response of the outermost handler to anything thrown. *)
Definition internal_failure (error : thrown) : next_response :=
  {| http_status := 500;
     payload := {| success := false;
                   variables := [error_message error] |} |}.

Definition POST (w : world) (req : next_request) : M next_response :=
  try_catch
    ('(repo, pat, envText) <- parseFormData req ;;
     repoCheckResponse <- do_fetch w (probe_request repo pat) ;;
     if (status repoCheckResponse =? 404)%Z then ret access_error
     else
       keyInfo <- getPublicKey w repo pat ;;
       secrets <- (emit (EvParseEnvContent envText) ;;
                   ret (parseEnvContent envText)) ;;
       acc <- process_secrets w repo pat keyInfo (Object_entries secrets)
                initial_loop_state ;;
       ret (report acc))
    (fun error => ret (internal_failure error)).

(** ** Notions used to state the properties of a run *)

(** What happens to the write of one secret: the encryption throws, the
    transport throws, or the store answers. *)
Inductive attempt : Type :=
| EncryptionThrows (e : thrown)
| TransportThrows (e : thrown)
| Responds (r : response).

(** The key of the latest call of [setSecret] in a history. *)
Definition current_key (log : list event) : option string :=
  fold_left (fun acc e => match e with EvSetSecret k => Some k | _ => acc end)
            log None.

(** The world in which the write of each key has the outcome assigned to
    that key. *)
Definition assigned_world (a : string -> attempt) : world :=
  {| fetch := fun log _ =>
       match current_key log with
       | Some k =>
           match a k with
           | Responds r => Returned r
           | TransportThrows e => Thrown e
           | EncryptionThrows e => Thrown e
           end
       | None => Thrown (ThrownError "fetch failed")
       end;
     sodium_seal := fun log plaintext _ =>
       match current_key log with
       | Some k =>
           match a k with
           | EncryptionThrows e => Thrown e
           | _ => Returned ("sealed:" ++ plaintext)
           end
       | None => Returned ("sealed:" ++ plaintext)
       end |}.

(** The store accepted the write: it answered 201 or 204. *)
Definition accepted (a : attempt) : bool :=
  match a with
  | Responds r => (status r =? 201)%Z || (status r =? 204)%Z
  | _ => false
  end.

(** The keys for which [setSecret] was called, in order. *)
Definition set_secret_calls (log : list event) : list string :=
  flat_map (fun e => match e with EvSetSecret k => [k] | _ => [] end) log.

(** The loop's arrays after one more result. *)
Definition extend (acc : loop_state) (r : result_entry) : loop_state :=
  {| results := (results acc ++ [r])%list;
     failedSecrets :=
       if r_success r then failedSecrets acc
       else (failedSecrets acc ++ [r_key r])%list;
     successSecrets :=
       if r_success r then (successSecrets acc ++ [r_key r])%list
       else successSecrets acc |}.

(** The entry of [results] for a call of [setSecret] that returned. *)
Definition entry_of (key : string) (r : set_secret_result) : result_entry :=
  {| r_key := key; r_success := ss_success r;
     r_status := Some (ss_status r);
     r_statusText := Some (ss_statusText r);
     r_response := Some (ss_response r);
     r_error := None |}.

(** The entry of [results] for a call of [setSecret] that threw. *)
Definition entry_of_error (key : string) (e : thrown) : result_entry :=
  {| r_key := key; r_success := false;
     r_status := None; r_statusText := None; r_response := None;
     r_error := Some (error_message e) |}.

(** The result of [setSecret] for a response of the store. *)
Definition result_of_response (r : response) : set_secret_result :=
  {| ss_status := status r;
     ss_statusText := statusText r;
     ss_success := (status r =? 201)%Z || (status r =? 204)%Z;
     ss_response := match text r with
                    | Returned t => t
                    | Thrown _ => "Failed to read response body"
                    end |}.

(** The events logged by one iteration of the loop: the call, the
    encryption and, when the encryption returned, the write request. *)
Definition iteration_events (w : world) (repo pat : string)
    (keyInfo : key_info) (key value : string) (log : list event)
  : list event :=
  let log1 := (log ++ [EvSetSecret key])%list in
  EvSetSecret key :: EvEncryptValue value (publicKey keyInfo)
  :: match sodium_seal w log1 value (publicKey keyInfo) with
     | Thrown _ => []
     | Returned c => [EvFetch (write_request repo pat key keyInfo c)]
     end.

(** Events of key discovery, of parsing, and of the work done per key
    (a call of [setSecret], an encryption, a write request). *)
Definition is_discovery (e : event) : bool :=
  match e with EvGetPublicKey _ => true | _ => false end.

Definition is_parse (e : event) : bool :=
  match e with EvParseEnvContent _ => true | _ => false end.

Definition is_per_key (e : event) : bool :=
  match e with
  | EvSetSecret _ | EvEncryptValue _ _ => true
  | EvFetch q => match method q with PUT => true | GET => false end
  | _ => false
  end.

(** ** Sample worlds and requests *)

Definition answer (s : Z) (data : json_value) : response :=
  {| status := s; statusText := EmptyString; text := Returned EmptyString;
     json := Returned data |}.

Definition sample_key : json_value := JsonObject (Some "a2V5") (Some "568250").

Definition no_key : json_value := JsonObject None None.

(** A store that knows the repository and its key and creates every
    secret. *)
Definition repo_world : world :=
  {| fetch := fun _ q =>
       match method q with
       | GET => Returned (answer 200 sample_key)
       | PUT => Returned (answer 201 no_key)
       end;
     sodium_seal := fun _ plaintext _ => Returned ("sealed:" ++ plaintext) |}.

(** A store that answers 404 to everything. *)
Definition missing_world : world :=
  {| fetch := fun _ _ => Returned (answer 404 no_key);
     sodium_seal := fun _ plaintext _ => Returned ("sealed:" ++ plaintext) |}.

(** A store that refuses the key lookups with the given status and an
    error body. *)
Definition refusing_world (s : Z) : world :=
  {| fetch := fun _ _ => Returned (answer s no_key);
     sodium_seal := fun _ plaintext _ => Returned ("sealed:" ++ plaintext) |}.

(** A store that answers 404 to the lookup of the repository key and
    refuses the lookup of the organisation key with the given status. *)
Definition org_refusing_world (s : Z) : world :=
  {| fetch := fun _ q =>
       if String.eqb (url q) (url (repo_key_request "octo/site" "t0ken"))
       then Returned (answer 404 no_key)
       else Returned (answer s no_key);
     sodium_seal := fun _ plaintext _ => Returned ("sealed:" ++ plaintext) |}.

(** A network that is down. *)
Definition offline_world : world :=
  {| fetch := fun _ _ => Thrown (ThrownError "fetch failed");
     sodium_seal := fun _ plaintext _ => Returned ("sealed:" ++ plaintext) |}.

Definition sample_request (env : string) : next_request :=
  {| formData := Returned {| form_repo := Some "octo/site";
                             form_pat := Some "t0ken";
                             form_env := Some env |} |}.

Definition sample_key_info (org : bool) : key_info :=
  {| publicKey := Some "a2V5"; keyId := Some "568250"; isOrg := org |}.

(** An assignment in which the store refuses the key B and creates every
    other secret. *)
Definition refuse_B (k : string) : attempt :=
  if String.eqb k "B" then Responds (answer 500 no_key)
  else Responds (answer 201 no_key).

(** ** Notions used to state further properties of the parser *)

(** A key of the pattern KEY=VALUE: one or more characters of the class. *)
Definition valid_key (k : string) : bool :=
  negb (is_empty k) && all_chars is_key_char k.

(** A line that the loop skips, in either state: blank once trimmed, or a
    comment. *)
Definition skipped (raw : string) : bool :=
  is_empty (trim raw) || startsWith "#" (trim raw).

Definition no_line_terminator (s : string) : bool :=
  all_chars (fun c => negb (is_line_terminator c)) s.

Definition no_newline (s : string) : bool :=
  all_chars (fun c => negb (Ascii.eqb c "010")) s.

(** A value written without quotes that the parser takes as it is: no
    line terminator, no white space at its end and no quote character at
    its start. *)
Definition plain_value (v : string) : bool :=
  no_line_terminator v
  && String.eqb (trimEnd v) v
  && match v with
     | EmptyString => true
     | String c _ => negb (is_quote c)
     end.

(** [lines.join(sep)] *)
Fixpoint join (sep : string) (lines : list string) : string :=
  match lines with
  | [] => EmptyString
  | l :: rest =>
      match rest with
      | [] => l
      | _ :: _ => l ++ sep ++ join sep rest
      end
  end.

Definition line_of (kv : string * string) : string :=
  fst kv ++ "=" ++ snd kv.

(** The env text with one line KEY=VALUE per pair. *)
Definition render (entries : list (string * string)) : string :=
  join nl (map line_of entries).

(** The same text with Windows line ends: a carriage return before every
    newline. *)
Fixpoint to_crlf (s : string) : string :=
  match s with
  | EmptyString => EmptyString
  | String c r =>
      if Ascii.eqb c "010" then String "013" (String "010" (to_crlf r))
      else String c (to_crlf r)
  end.


(** A pair that [render] writes as a line the parser reads back. *)
Definition plain_entry (kv : string * string) : Prop :=
  valid_key (fst kv) = true /\ plain_value (snd kv) = true.

(** The state kept by the loop: a remembered key is a key of the
    pattern, and so is every key of the object. *)
Definition well_formed (st : parser_state) : Prop :=
  (inValue st = true -> valid_key (currentKey st) = true)
  /\ Forall (fun k => valid_key k = true) (map fst (result st)).



(** The write requests of a log, in order. *)
Definition writes (log : list event) : list request :=
  flat_map (fun e => match e with
                     | EvFetch q =>
                         match method q with PUT => [q] | GET => [] end
                     | _ => []
                     end) log.

(** A store that knows the repository but has no key for it, nor for its
    organisation. *)
Definition keyless_world : world :=
  {| fetch := fun _ q =>
       if String.eqb (url q) (url (probe_request "octo/site" "t0ken"))
       then Returned (answer 200 no_key)
       else Returned (answer 404 no_key);
     sodium_seal := fun _ plaintext _ => Returned ("sealed:" ++ plaintext) |}.

(** A world in which the encryption fails. *)
Definition unsealed_world : world :=
  {| fetch := fun _ q =>
       match method q with
       | GET => Returned (answer 200 sample_key)
       | PUT => Returned (answer 201 no_key)
       end;
     sodium_seal := fun _ _ _ => Thrown (ThrownError "invalid public key") |}.

(** A store that answers every write with the given status and a body
    that cannot be read. *)
Definition unreadable_world (s : Z) : world :=
  {| fetch := fun _ _ =>
       Returned {| status := s; statusText := EmptyString;
                   text := Thrown ThrownOther;
                   json := Thrown ThrownOther |};
     sodium_seal := fun _ plaintext _ => Returned ("sealed:" ++ plaintext) |}.

(** A store that knows the repository and its key, on a network that
    goes down before the first write. *)
Definition offline_world_after_discovery : world :=
  {| fetch := fun _ q =>
       match method q with
       | GET => Returned (answer 200 sample_key)
       | PUT => Thrown (ThrownError "fetch failed")
       end;
     sodium_seal := fun _ plaintext _ => Returned ("sealed:" ++ plaintext) |}.

(** ** Notions used to state what a run does per key *)

(** The events logged by the loop over the entries, in order: those of
    each iteration, at the history that the iterations before it have
    left. *)
Fixpoint loop_events (w : world) (repo pat : string) (keyInfo : key_info)
    (entries : list (string * string)) (log : list event) : list event :=
  match entries with
  | [] => []
  | (key, value) :: rest =>
      let events := iteration_events w repo pat keyInfo key value log in
      (events ++ loop_events w repo pat keyInfo rest (log ++ events))%list
  end.

(** Whether each call of [setSecret] made by the loop returned a result
    with success, in the order of the entries. *)
Fixpoint loop_outcomes (w : world) (repo pat : string) (keyInfo : key_info)
    (entries : list (string * string)) (log : list event) : list bool :=
  match entries with
  | [] => []
  | (key, value) :: rest =>
      let run := setSecret w key value repo pat keyInfo log in
      match fst run with
      | Returned s => ss_success s
      | Thrown _ => false
      end :: loop_outcomes w repo pat keyInfo rest (snd run)
  end.

(** The keys whose outcome is [b], in order. *)
Definition keys_with (b : bool) (keys : list string) (outcomes : list bool)
  : list string :=
  map fst (filter (fun ko => Bool.eqb (snd ko) b) (combine keys outcomes)).


(** The write requests of a log that go to the secret of a key. *)
Definition writes_to (repo key : string) (keyInfo : key_info)
    (log : list event) : list request :=
  filter (fun q => String.eqb (url q) (secret_url repo key (isOrg keyInfo)))
         (writes log).

(** A recipient key that the sealed box accepts: the base64 text of the
    32 bytes of the base point of the curve. *)
Definition recipient_key : json_value :=
  JsonObject (Some "CQAAAAAAAAAAAAAAAAAAAAAAAAAAAAAAAAAAAAAAAAA=")
             (Some "568250").



(** A store that knows the repository and its key, refuses the secret B
    with status 500 and creates every other secret. *)
Definition store_without_B : world :=
  {| fetch := fun _ q =>
       match method q with
       | GET => Returned (answer 200 recipient_key)
       | PUT =>
           if String.eqb (url q)
                (api ++ "/repos/octo/site/actions/secrets/B")
           then Returned (answer 500 no_key)
           else Returned (answer 201 no_key)
       end;
     sodium_seal := fun _ plaintext _ => Returned ("sealed:" ++ plaintext) |}.

(** The key information that key discovery reads from [recipient_key]. *)
Definition recipient_key_info (org : bool) : key_info :=
  {| publicKey := Some "CQAAAAAAAAAAAAAAAAAAAAAAAAAAAAAAAAAAAAAAAAA=";
     keyId := Some "568250"; isOrg := org |}.

(** * Properties *)

(** ** Strings *)

Section StringFacts.

Lemma endsWith_append (p body : string) : endsWith p (body ++ p) = true.
Proof.
  induction body as [|c body IH]; simpl.
  - destruct p; simpl; [reflexivity|].
    rewrite Ascii.eqb_refl, String.eqb_refl. reflexivity.
  - rewrite IH. apply orb_true_r.
Qed.

Lemma append_dq_not_dq (c : ascii) (b : string) :
  String.eqb (String c b ++ dq) dq = false.
Proof.
  simpl. destruct (Ascii.eqb c "034"); [|reflexivity].
  destruct b; reflexivity.
Qed.

(** A line [body ++ dq] ends with backslash-quote exactly when [body]
    ends with a backslash. *)
Lemma endsWith_escaped (body : string) :
  endsWith (bs ++ dq) (body ++ dq) = endsWith bs body.
Proof.
  induction body as [|c body IH].
  - reflexivity.
  - change (endsWith (bs ++ dq) (String c body ++ dq))
      with (String.eqb (String c (body ++ dq)) (bs ++ dq)
            || endsWith (bs ++ dq) (body ++ dq)).
    change (endsWith bs (String c body))
      with (String.eqb (String c body) bs || endsWith bs body).
    rewrite IH. f_equal.
    simpl. destruct (Ascii.eqb c "092"); [|reflexivity].
    destruct body as [|d body]; [reflexivity|].
    apply append_dq_not_dq.
Qed.

Lemma slice_append_dq (body : string) : slice_0_m1 (body ++ dq) = body.
Proof.
  induction body as [|c body IH]; [reflexivity|].
  simpl. simpl in IH. rewrite IH.
  destruct body; reflexivity.
Qed.

End StringFacts.

(** ** Objects *)

Section ObjectFacts.

Lemma define_own_get_same (o : object) (k v : string) :
  obj_get (define_own o k v) k = Some v.
Proof.
  induction o as [|[k' v'] o IH]; simpl.
  - now rewrite String.eqb_refl.
  - destruct (String.eqb k' k) eqn:E; simpl.
    + now rewrite String.eqb_refl.
    + now rewrite E.
Qed.

Lemma define_own_get_other (o : object) (k v k0 : string) :
  k0 <> k -> obj_get (define_own o k v) k0 = obj_get o k0.
Proof.
  intros Hne. induction o as [|[k' v'] o IH]; simpl.
  - destruct (String.eqb_spec k k0); congruence.
  - destruct (String.eqb_spec k' k) as [->|Hk]; simpl.
    + destruct (String.eqb_spec k k0); congruence.
    + now rewrite IH.
Qed.

(** An assignment binds the key, unless the key is [__proto__]. *)
Lemma obj_get_set_same (o : object) (k v : string) :
  k <> "__proto__" -> obj_get (obj_set o k v) k = Some v.
Proof.
  intros Hk. unfold obj_set.
  destruct (String.eqb_spec k "__proto__"); [contradiction|].
  apply define_own_get_same.
Qed.

Lemma obj_get_set_other (o : object) (k v k0 : string) :
  k0 <> k -> obj_get (obj_set o k v) k0 = obj_get o k0.
Proof.
  intros Hne. unfold obj_set.
  destruct (String.eqb k "__proto__"); [reflexivity|].
  now apply define_own_get_other.
Qed.

Lemma define_own_keys (o : object) (k v : string) :
  map fst (define_own o k v)
  = if existsb (String.eqb k) (map fst o) then map fst o
    else (map fst o ++ [k])%list.
Proof.
  induction o as [|[k' v'] o IH]; simpl; [reflexivity|].
  rewrite (String.eqb_sym k k').
  destruct (String.eqb_spec k' k) as [->|Hk]; simpl; [reflexivity|].
  rewrite IH. destruct (existsb (String.eqb k) (map fst o)); reflexivity.
Qed.

Lemma existsb_eqb_In (k : string) (l : list string) :
  existsb (String.eqb k) l = true <-> In k l.
Proof.
  rewrite existsb_exists. split.
  - intros [x [Hx E]]. apply String.eqb_eq in E. now subst.
  - intros H. exists k. split; [assumption | apply String.eqb_refl].
Qed.

Lemma define_own_NoDup (o : object) (k v : string) :
  NoDup (map fst o) -> NoDup (map fst (define_own o k v)).
Proof.
  intros H. rewrite define_own_keys.
  destruct (existsb (String.eqb k) (map fst o)) eqn:E; [assumption|].
  apply NoDup_app; [assumption | repeat constructor; intros [] | ].
  intros x Hx [<-|[]].
  apply existsb_eqb_In in Hx. congruence.
Qed.

Lemma obj_set_NoDup (o : object) (k v : string) :
  NoDup (map fst o) -> NoDup (map fst (obj_set o k v)).
Proof.
  intros H. unfold obj_set.
  destruct (String.eqb k "__proto__"); [assumption|].
  now apply define_own_NoDup.
Qed.

Lemma obj_get_In (o : object) (k : string) :
  In k (map fst o) <-> exists v, obj_get o k = Some v.
Proof.
  induction o as [|[k' v'] o IH]; simpl.
  - split; [intros [] | intros [v Hv]; discriminate].
  - destruct (String.eqb_spec k' k) as [->|Hk].
    + split; [intros _; now exists v' | now left].
    + rewrite <- IH. split; [intros [E|H]; [contradiction|assumption] | now right].
Qed.

Lemma insert_by_index_perm (e : string * string) (l : list (string * string)) :
  Permutation (insert_by_index e l) (e :: l).
Proof.
  induction l as [|e' l IH]; simpl; [reflexivity|].
  destruct (index_of_entry e <=? index_of_entry e')%N; [reflexivity|].
  rewrite IH. apply perm_swap.
Qed.

Lemma sort_by_index_perm (l : list (string * string)) :
  Permutation (sort_by_index l) l.
Proof.
  induction l as [|e l IH]; simpl; [reflexivity|].
  rewrite insert_by_index_perm. now constructor.
Qed.

Lemma filter_split_perm {A} (f : A -> bool) (l : list A) :
  Permutation (filter f l ++ filter (fun x => negb (f x)) l) l.
Proof.
  induction l as [|x l IH]; simpl; [reflexivity|].
  destruct (f x); simpl.
  - now constructor.
  - rewrite <- Permutation_middle. now constructor.
Qed.

(** [Object.entries] enumerates every own property exactly once. *)
Lemma Object_entries_perm (o : object) : Permutation (Object_entries o) o.
Proof.
  unfold Object_entries.
  rewrite sort_by_index_perm. apply filter_split_perm.
Qed.

Lemma Object_entries_NoDup (o : object) :
  NoDup (map fst o) -> NoDup (map fst (Object_entries o)).
Proof.
  intros H. eapply Permutation_NoDup; [|exact H].
  apply Permutation_map. symmetry. apply Object_entries_perm.
Qed.

Lemma Object_entries_keys (o : object) (k : string) :
  In k (map fst (Object_entries o)) <-> exists v, obj_get o k = Some v.
Proof.
  rewrite <- obj_get_In. split; apply Permutation_in, Permutation_map.
  - apply Object_entries_perm.
  - symmetry. apply Object_entries_perm.
Qed.

End ObjectFacts.

(** ** The parser *)

(** The examples of the parser's documentation. *)

Example parse_two_lines :
  parseEnvContent ("A=1" ++ nl ++ "B=2") = [("A", "1"); ("B", "2")].
Proof. reflexivity. Qed.

Example parse_quoted :
  parseEnvContent ("A=" ++ dq ++ "hello" ++ dq) = [("A", "hello")].
Proof. reflexivity. Qed.

Example parse_multiline :
  parseEnvContent ("A=" ++ dq ++ "line1" ++ nl ++ "line2" ++ dq)
  = [("A", "line1" ++ nl ++ "line2")].
Proof. reflexivity. Qed.

Example parse_comment_blank :
  parseEnvContent ("# comment" ++ nl ++ nl ++ "A=1") = [("A", "1")].
Proof. reflexivity. Qed.

Example parse_unterminated :
  parseEnvContent ("A=" ++ dq ++ "oops") = [("A", "oops")].
Proof. reflexivity. Qed.

Example parse_mismatched_quotes :
  parseEnvContent ("A=" ++ sq ++ "abc" ++ dq) = [("A", "abc")].
Proof. reflexivity. Qed.

Example entries_index_keys_first :
  map fst (Object_entries (parseEnvContent ("B=x" ++ nl ++ "10=y" ++ nl ++ "9=z" ++ nl ++ "07=w")))
  = ["9"; "10"; "B"; "07"].
Proof. reflexivity. Qed.

Section ParserFacts.

Lemma parse_line_result (st : parser_state) (raw : string) :
  result (parse_line st raw)
  = match line_assignment st raw with
    | Some kv => assign (result st) kv
    | None => result st
    end.
Proof.
  unfold parse_line, line_assignment.
  destruct (is_empty (trim raw) || startsWith "#" (trim raw)); [reflexivity|].
  destruct (negb (inValue st)).
  - destruct (match_key_value (trim raw)) as [[k v]|]; [|reflexivity].
    destruct (startsWith dq v && negb (endsWith dq v)
              && negb (endsWith (bs ++ dq) v)); reflexivity.
  - destruct (endsWith dq (trim raw) && negb (endsWith (bs ++ dq) (trim raw)));
      reflexivity.
Qed.

Lemma finish_result (st : parser_state) :
  finish st = fold_left assign (cons_option (final_assignment st) []) (result st).
Proof.
  unfold finish, final_assignment.
  destruct (inValue st && negb (is_empty (currentKey st))); reflexivity.
Qed.

(** The parser's object is the outcome of its assignments, in order. *)
Lemma parser_assignments (lines : list string) (st : parser_state) :
  finish (fold_left parse_line lines st)
  = fold_left assign (assignments lines st) (result st).
Proof.
  revert st. induction lines as [|l lines IH]; intros st; simpl.
  - apply finish_result.
  - rewrite IH, parse_line_result.
    destruct (line_assignment st l); reflexivity.
Qed.

Lemma assign_NoDup (cs : list (string * string)) (o : object) :
  NoDup (map fst o) -> NoDup (map fst (fold_left assign cs o)).
Proof.
  revert o. induction cs as [|c cs IH]; intros o H; simpl; [assumption|].
  apply IH. now apply obj_set_NoDup.
Qed.

(** The keys of the parsed object are pairwise distinct. *)
Lemma parseEnvContent_NoDup (envContent : string) :
  NoDup (map fst (parseEnvContent envContent)).
Proof.
  unfold parseEnvContent. rewrite parser_assignments.
  apply assign_NoDup. constructor.
Qed.

Lemma obj_get_assign (o : object) (kv : string * string) (k : string) :
  k <> "__proto__" ->
  obj_get (assign o kv) k
  = if String.eqb (fst kv) k then Some (snd kv) else obj_get o k.
Proof.
  intros Hk. unfold assign.
  destruct (String.eqb_spec (fst kv) k) as [E|E].
  - rewrite E. now apply obj_get_set_same.
  - apply obj_get_set_other. congruence.
Qed.

Lemma obj_get_assignments (cs : list (string * string)) (o : object)
    (k : string) :
  k <> "__proto__" ->
  obj_get (fold_left assign cs o) k
  = fold_left (fun acc kv => if String.eqb (fst kv) k then Some (snd kv) else acc)
              cs (obj_get o k).
Proof.
  intros Hk. revert o. induction cs as [|c cs IH]; intros o; simpl.
  - reflexivity.
  - rewrite IH, obj_get_assign by assumption. reflexivity.
Qed.

(** X1. Last write wins, for every key but [__proto__]: the parsed object
    binds a key to the value of the last assignment to it, and has no
    property of that name when the parser assigned nothing to it. *)
Theorem last_write_wins (envContent k : string) :
  k <> "__proto__" ->
  obj_get (parseEnvContent envContent) k
  = last_value k (assignments (split "010" envContent) initial_state).
Proof.
  intros Hk. unfold parseEnvContent, last_value.
  rewrite parser_assignments. now apply obj_get_assignments.
Qed.

Lemma endsWith_escaped_plain (v : string) :
  endsWith (bs ++ dq) v = true -> endsWith dq v = true.
Proof.
  induction v as [|c v IH]; [discriminate|].
  change (endsWith (bs ++ dq) (String c v))
    with (String.eqb (String c v) (bs ++ dq) || endsWith (bs ++ dq) v).
  change (endsWith dq (String c v))
    with (String.eqb (String c v) dq || endsWith dq v).
  intros H. apply orb_true_iff in H. destruct H as [H|H].
  - apply String.eqb_eq in H. change (bs ++ dq) with (String "092" dq) in H.
    injection H as -> ->. reflexivity.
  - rewrite (IH H). apply orb_true_r.
Qed.

(** A line that matches KEY=VALUE is neither blank nor a comment. *)
Lemma match_not_skipped (line k v : string) :
  match_key_value line = Some (k, v) ->
  is_empty line || startsWith "#" line = false.
Proof.
  unfold match_key_value. destruct line as [|c line]; [discriminate|].
  cbn [span]. destruct (is_key_char c) eqn:Hc; [|discriminate].
  intros _. cbn [is_empty orb startsWith].
  destruct (Ascii.eqb_spec "#" c) as [<-|]; [discriminate Hc | reflexivity].
Qed.


(** A value that ends with a backslash-escaped quote never opens a
    multi-line value: the line is stored as a single-line value. *)
Lemma escaped_quote_closes (st : parser_state) (raw k v : string) :
  inValue st = false ->
  match_key_value (trim raw) = Some (k, v) ->
  endsWith (bs ++ dq) v = true ->
  parse_line st raw
  = {| result := obj_set (result st) k (strip_quotes v);
       currentKey := EmptyString; inValue := false; value := EmptyString |}.
Proof.
  intros Hin Hm He. unfold parse_line.
  rewrite (match_not_skipped _ _ _ Hm), Hin, Hm, He.
  rewrite (endsWith_escaped_plain _ He).
  now rewrite andb_false_r.
Qed.

End ParserFacts.

(** C6. A value that begins with a double quote and ends with a
    backslash-escaped quote does not open a multi-line value: on the line
    made of A, =, a double quote, abc, a backslash and a double quote, the
    parser stays in the scanning state and stores the single-line value
    abc-backslash; a following line def-double-quote is then read as a line
    of its own and dropped. *)
Theorem escaped_quote_value_is_single_line :
  let line := "A=" ++ dq ++ "abc" ++ bs ++ dq in
  match_key_value line = Some ("A", dq ++ "abc" ++ bs ++ dq)
  /\ parse_line initial_state line
     = {| result := [("A", "abc" ++ bs)]; currentKey := EmptyString;
          inValue := false; value := EmptyString |}
  /\ parseEnvContent (line ++ nl ++ "def" ++ dq) = [("A", "abc" ++ bs)].
Proof. repeat split. Qed.

(** C7 fails as stated: in the multi-line state a line with surrounding
    white space is appended without it, and a blank line or a line that
    begins with [#] is not appended at all. *)
Lemma multiline_raw_line_not_appended :
  let st := parse_line initial_state ("A=" ++ dq ++ "x") in
  inValue st = true
  /\ value (parse_line st "  y  ") <> value st ++ nl ++ "  y  "
  /\ value (parse_line st EmptyString) <> value st ++ nl ++ EmptyString
  /\ value (parse_line st "# c") <> value st ++ nl ++ "# c"
  /\ parseEnvContent ("A=" ++ dq ++ "x" ++ nl ++ nl ++ "  y  " ++ nl
                      ++ "# c" ++ nl ++ "z" ++ dq)
     = [("A", "x" ++ nl ++ "y" ++ nl ++ "z")].
Proof. vm_compute. repeat split; discriminate. Qed.

(** C7, amended. In the multi-line state a line is first trimmed; a line
    that is then empty or begins with [#] changes nothing; a line that
    ends with a double quote not preceded by a backslash is appended
    without that quote after a newline, the buffer is assigned to the
    remembered key (which binds it, for every key but [__proto__]) and
    the parser returns to the scanning state; any other line is appended,
    trimmed, after a newline and the parser keeps accumulating. *)
Theorem multiline_accumulation (st : parser_state) (raw : string) :
  inValue st = true ->
  let line := trim raw in
  (is_empty line || startsWith "#" line = true -> parse_line st raw = st)
  /\ (forall body,
        line = body ++ dq -> startsWith "#" line = false ->
        endsWith bs body = false ->
        parse_line st raw
        = {| result := obj_set (result st) (currentKey st)
                               (value st ++ nl ++ body);
             currentKey := EmptyString; inValue := false;
             value := EmptyString |}
        /\ (currentKey st <> "__proto__" ->
            obj_get (result (parse_line st raw)) (currentKey st)
            = Some (value st ++ nl ++ body)))
  /\ (is_empty line || startsWith "#" line = false ->
      endsWith dq line && negb (endsWith (bs ++ dq) line) = false ->
      parse_line st raw
      = {| result := result st; currentKey := currentKey st;
           inValue := true; value := value st ++ nl ++ line |}).
Proof.
  intros Hin line. unfold parse_line. fold line. rewrite Hin. simpl.
  split; [|split].
  - intros ->. reflexivity.
  - intros body Hl Hc Hb.
    assert (Hne : is_empty line = false)
      by (rewrite Hl; destruct body; reflexivity).
    rewrite Hne, Hc. simpl.
    rewrite Hl, endsWith_append, endsWith_escaped, Hb, slice_append_dq. simpl.
    split; [reflexivity|].
    intros Hk. simpl. now apply obj_get_set_same.
  - intros -> ->. reflexivity.
Qed.

(** The amended rule at work on a remembered key and two lines. *)
Lemma multiline_accumulation_witness :
  let st := {| result := empty_object; currentKey := "A"; inValue := true;
               value := "x" |} in
  parse_line st ("  y" ++ dq ++ " ")
  = {| result := [("A", "x" ++ nl ++ "y")]; currentKey := EmptyString;
       inValue := false; value := EmptyString |}
  /\ obj_get (result (parse_line st ("  y" ++ dq ++ " "))) "A"
     = Some ("x" ++ nl ++ "y").
Proof.
  intro st.
  destruct (multiline_accumulation st ("  y" ++ dq ++ " ") eq_refl)
    as [_ [H _]].
  destruct (H "y" eq_refl eq_refl eq_refl) as [H1 H2].
  split; [exact H1 | apply H2; discriminate].
Defined.

(** C9. The key [__proto__] is not bound to the value of its latest
    occurrence: both assignments run the inherited setter, which ignores
    a string, and the parsed object has no entry at all. (For every other
    key, see [last_write_wins].) *)
Theorem proto_key_not_bound :
  let text := "__proto__=1" ++ nl ++ "__proto__=2" in
  assignments (split "010" text) initial_state
  = [("__proto__", "1"); ("__proto__", "2")]
  /\ parseEnvContent text = []
  /\ obj_get (parseEnvContent text) "__proto__" = None
  /\ Object_entries (parseEnvContent text) = []
  /\ parseEnvContent ("A=1" ++ nl ++ "A=2") = [("A", "2")].
Proof. repeat split. Qed.

(** ** The per-secret loop *)

Section LoopFacts.

Variable w : world.
Variables repo pat : string.
Variable keyInfo : key_info.

(** [setSecret] step by step: the encryption, then the request. *)
Lemma setSecret_run (key value : string) (log : list event) :
  setSecret w key value repo pat keyInfo log
  = let log1 := (log ++ [EvSetSecret key])%list in
    let log2 := (log1 ++ [EvEncryptValue value (publicKey keyInfo)])%list in
    match sodium_seal w log1 value (publicKey keyInfo) with
    | Thrown e => (Thrown e, log2)
    | Returned c =>
        let q := write_request repo pat key keyInfo c in
        match fetch w log2 q with
        | Thrown e => (Thrown e, (log2 ++ [EvFetch q])%list)
        | Returned r =>
            (Returned (result_of_response r), (log2 ++ [EvFetch q])%list)
        end
    end.
Proof.
  unfold setSecret, bind, emit, encryptValue, do_fetch, try_catch, await, ret.
  cbv zeta.
  destruct (sodium_seal w _ value (publicKey keyInfo)) as [c|e]; [|reflexivity].
  destruct (fetch w _ _) as [r|e]; [|reflexivity].
  unfold result_of_response. destruct (text r); reflexivity.
Qed.

(** The body of the loop never throws: it adds one result for its key. *)
Lemma process_secret_run (acc : loop_state) (key value : string)
    (log : list event) :
  process_secret w repo pat keyInfo acc (key, value) log
  = match setSecret w key value repo pat keyInfo log with
    | (Returned r, log') => (Returned (extend acc (entry_of key r)), log')
    | (Thrown e, log') => (Returned (extend acc (entry_of_error key e)), log')
    end.
Proof.
  unfold process_secret, try_catch, bind, ret.
  destruct (setSecret w key value repo pat keyInfo log) as [[r|e] log'].
  - unfold extend, entry_of. simpl. destruct (ss_success r); reflexivity.
  - reflexivity.
Qed.

Lemma setSecret_log (key value : string) (log : list event) :
  snd (setSecret w key value repo pat keyInfo log)
  = (log ++ iteration_events w repo pat keyInfo key value log)%list.
Proof.
  rewrite setSecret_run. unfold iteration_events. cbv zeta.
  destruct (sodium_seal w _ value (publicKey keyInfo)) as [c|e]; simpl.
  - destruct (fetch w _ _); simpl; now rewrite <- !app_assoc.
  - now rewrite <- !app_assoc.
Qed.

Lemma process_secret_total (acc : loop_state) (key value : string)
    (log : list event) :
  exists r,
    process_secret w repo pat keyInfo acc (key, value) log
    = (Returned (extend acc r), (log ++ iteration_events w repo pat keyInfo key value log)%list)
    /\ r_key r = key
    /\ r_success r
       = match fst (setSecret w key value repo pat keyInfo log) with
         | Returned s => ss_success s
         | Thrown _ => false
         end.
Proof.
  rewrite process_secret_run. rewrite <- setSecret_log.
  destruct (setSecret w key value repo pat keyInfo log) as [[s|e] log'];
    simpl; eexists; repeat split.
Qed.

Lemma set_secret_calls_app (l1 l2 : list event) :
  set_secret_calls (l1 ++ l2) = (set_secret_calls l1 ++ set_secret_calls l2)%list.
Proof. apply flat_map_app. Qed.

Lemma iteration_calls (key value : string) (log : list event) :
  set_secret_calls (iteration_events w repo pat keyInfo key value log) = [key].
Proof.
  unfold iteration_events. cbv zeta.
  destruct (sodium_seal w _ value (publicKey keyInfo)); reflexivity.
Qed.

Lemma iteration_fetches (key value : string) (log : list event) (q : request) :
  In (EvFetch q) (iteration_events w repo pat keyInfo key value log) ->
  exists c, q = write_request repo pat key keyInfo c.
Proof.
  unfold iteration_events. cbv zeta.
  destruct (sodium_seal w _ value (publicKey keyInfo)) as [c|e]; simpl.
  - intros [H|[H|[H|[]]]]; try discriminate.
    injection H as <-. now exists c.
  - intros [H|[H|[]]]; discriminate.
Qed.

(** The loop never throws; it adds one result per entry, in order, calls
    [setSecret] once per entry, in order, and issues only write
    requests for the keys of the entries. *)
Lemma process_secrets_total (entries : list (string * string)) :
  forall (acc : loop_state) (log : list event),
  exists rs more,
    process_secrets w repo pat keyInfo entries acc log
    = (Returned (fold_left extend rs acc), (log ++ more)%list)
    /\ map r_key rs = map fst entries
    /\ set_secret_calls more = map fst entries
    /\ (forall q, In (EvFetch q) more ->
                  exists key c, In key (map fst entries)
                                /\ q = write_request repo pat key keyInfo c)
    /\ (entries = [] -> more = []).
Proof.
  induction entries as [|[key value] rest IH]; intros acc log.
  - exists [], []. simpl. unfold ret. rewrite app_nil_r.
    repeat split. intros q [].
  - destruct (process_secret_total acc key value log) as [r [Hr [Hk _]]].
    destruct (IH (extend acc r) (log ++ iteration_events w repo pat keyInfo key value log)%list)
      as [rs [more [Hrs [Hkeys [Hcalls [Hq _]]]]]].
    exists (r :: rs), (iteration_events w repo pat keyInfo key value log ++ more)%list.
    split; [|split; [|split; [|split]]].
    + cbn [process_secrets]. unfold bind. rewrite Hr, Hrs.
      now rewrite app_assoc.
    + simpl. congruence.
    + rewrite set_secret_calls_app, iteration_calls, Hcalls. reflexivity.
    + intros q Hin. apply in_app_or in Hin. destruct Hin as [Hin|Hin].
      * destruct (iteration_fetches _ _ _ _ Hin) as [c Hc].
        exists key, c. split; [now left | assumption].
      * destruct (Hq q Hin) as [k [c [Hk' Hc]]].
        exists k, c. split; [now right | assumption].
    + discriminate.
Qed.

End LoopFacts.

(** ** The arrays of the loop *)

Section Aggregation.

Lemma extend_results (rs : list result_entry) (acc : loop_state) :
  results (fold_left extend rs acc) = (results acc ++ rs)%list.
Proof.
  revert acc. induction rs as [|r rs IH]; intros acc; simpl.
  - now rewrite app_nil_r.
  - rewrite IH. simpl. now rewrite <- app_assoc.
Qed.

Lemma extend_success (rs : list result_entry) (acc : loop_state) :
  successSecrets (fold_left extend rs acc)
  = (successSecrets acc ++ map r_key (filter r_success rs))%list.
Proof.
  revert acc. induction rs as [|r rs IH]; intros acc; simpl.
  - now rewrite app_nil_r.
  - rewrite IH. simpl. destruct (r_success r); simpl; [|reflexivity].
    now rewrite <- app_assoc.
Qed.

Lemma extend_failed (rs : list result_entry) (acc : loop_state) :
  failedSecrets (fold_left extend rs acc)
  = (failedSecrets acc
     ++ map r_key (filter (fun r => negb (r_success r)) rs))%list.
Proof.
  revert acc. induction rs as [|r rs IH]; intros acc; simpl.
  - now rewrite app_nil_r.
  - rewrite IH. simpl. destruct (r_success r); simpl; [reflexivity|].
    now rewrite <- app_assoc.
Qed.

(** Succeeded and failed keys together are the keys of the results. *)
Lemma partition_keys (rs : list result_entry) :
  Permutation
    (successSecrets (fold_left extend rs initial_loop_state)
     ++ failedSecrets (fold_left extend rs initial_loop_state))%list
    (map r_key rs).
Proof.
  rewrite extend_success, extend_failed. simpl.
  rewrite <- map_app. apply Permutation_map, filter_split_perm.
Qed.

Lemma NoDup_app_disjoint {A} (l1 l2 : list A) (a : A) :
  NoDup (l1 ++ l2) -> In a l1 -> ~ In a l2.
Proof.
  induction l1 as [|x l1 IH]; simpl; intros Hnd Hin; [contradiction|].
  inversion Hnd as [|? ? Hx Hrest]; subst.
  destruct Hin as [->|Hin].
  - intros H2. apply Hx, in_or_app. now right.
  - now apply IH.
Qed.

Lemma report_success (acc : loop_state) :
  success (payload (report acc)) = true <-> failedSecrets acc = [].
Proof.
  unfold report. destruct (failedSecrets acc); simpl; split;
    congruence.
Qed.

End Aggregation.

(** ** The handler *)

Section HandlerFacts.

Variable w : world.

(** The handler once the form is read and the probe has answered with a
    status other than 404: key discovery, parsing, the loop, the report;
    anything thrown on the way becomes the generic failure. *)
Lemma POST_after_probe (req : next_request) (repo pat envText : string)
    (log0 : list event) (probe : response) :
  parseFormData req log0 = (Returned (repo, pat, envText), log0) ->
  fetch w log0 (probe_request repo pat) = Returned probe ->
  status probe <> 404%Z ->
  POST w req log0
  = match getPublicKey w repo pat (log0 ++ [EvFetch (probe_request repo pat)])%list with
    | (Thrown e, log1) => (Returned (internal_failure e), log1)
    | (Returned keyInfo, log1) =>
        match process_secrets w repo pat keyInfo
                (Object_entries (parseEnvContent envText))
                initial_loop_state (log1 ++ [EvParseEnvContent envText])%list with
        | (Returned acc, log2) => (Returned (report acc), log2)
        | (Thrown e, log2) => (Returned (internal_failure e), log2)
        end
    end.
Proof.
  intros Hform Hprobe Hstatus.
  apply Z.eqb_neq in Hstatus.
  unfold POST, try_catch, bind at 1. rewrite Hform.
  unfold bind at 1, do_fetch. rewrite Hprobe, Hstatus.
  unfold bind at 1.
  destruct (getPublicKey w repo pat _) as [[keyInfo|e] log1]; [|reflexivity].
  unfold bind at 1. unfold bind at 1, emit, ret.
  unfold bind.
  destruct (process_secrets w repo pat keyInfo _ _ _) as [[acc|e] log2];
    reflexivity.
Qed.

End HandlerFacts.

(** C1. In every run that reaches the loop over the secrets, the loop ends
    and the handler answers with its report; the succeeded and the failed
    keys have no key in common and no key twice, together they are exactly
    the keys of the parsed object, and the report says success exactly
    when no key failed. *)
Theorem report_partitions_keys (w : world) (req : next_request)
    (repo pat envText : string) (log0 log1 : list event) (probe : response)
    (keyInfo : key_info) :
  parseFormData req log0 = (Returned (repo, pat, envText), log0) ->
  fetch w log0 (probe_request repo pat) = Returned probe ->
  status probe <> 404%Z ->
  getPublicKey w repo pat (log0 ++ [EvFetch (probe_request repo pat)])%list
  = (Returned keyInfo, log1) ->
  let secrets := parseEnvContent envText in
  exists acc log2,
    process_secrets w repo pat keyInfo (Object_entries secrets)
      initial_loop_state (log1 ++ [EvParseEnvContent envText])%list
    = (Returned acc, log2)
    /\ POST w req log0 = (Returned (report acc), log2)
    /\ NoDup (successSecrets acc ++ failedSecrets acc)%list
    /\ (forall k, In k (successSecrets acc) -> ~ In k (failedSecrets acc))
    /\ (forall k, In k (successSecrets acc) \/ In k (failedSecrets acc)
                  <-> exists v, obj_get secrets k = Some v)
    /\ (List.length (successSecrets acc) + List.length (failedSecrets acc)
        = List.length secrets)%nat
    /\ (success (payload (report acc)) = true <-> failedSecrets acc = []).
Proof.
  intros Hform Hprobe Hstatus Hkey secrets.
  destruct (process_secrets_total w repo pat keyInfo (Object_entries secrets)
              initial_loop_state (log1 ++ [EvParseEnvContent envText])%list)
    as [rs [more [Hrun [Hkeys _]]]].
  exists (fold_left extend rs initial_loop_state), ((log1 ++ [EvParseEnvContent envText]) ++ more)%list.
  assert (Hperm : Permutation
            (successSecrets (fold_left extend rs initial_loop_state)
             ++ failedSecrets (fold_left extend rs initial_loop_state))%list
            (map fst (Object_entries secrets)))
    by (rewrite <- Hkeys; apply partition_keys).
  assert (Hnodup : NoDup (successSecrets (fold_left extend rs initial_loop_state)
                          ++ failedSecrets (fold_left extend rs initial_loop_state))%list).
  { eapply Permutation_NoDup; [symmetry; exact Hperm|].
    apply Object_entries_NoDup, parseEnvContent_NoDup. }
  split; [exact Hrun|]. split; [|split; [exact Hnodup|split; [|split; [|split]]]].
  - rewrite (POST_after_probe w req repo pat envText log0 probe Hform Hprobe Hstatus).
    rewrite Hkey. fold secrets. rewrite Hrun. reflexivity.
  - intros k. now apply NoDup_app_disjoint.
  - intros k. rewrite <- Object_entries_keys, <- in_app_iff. split.
    + apply Permutation_in. exact Hperm.
    + apply Permutation_in. symmetry. exact Hperm.
  - rewrite <- length_app. rewrite (Permutation_length Hperm).
    rewrite length_map. apply Permutation_length, Object_entries_perm.
  - apply report_success.
Qed.

(** A run of C1: two secrets stored in a repository. *)
Lemma report_partitions_keys_witness :
  exists acc,
    fst (POST repo_world (sample_request ("A=1" ++ nl ++ "B=2")) [])
    = Returned (report acc)
    /\ NoDup (successSecrets acc ++ failedSecrets acc)%list
    /\ (success (payload (report acc)) = true <-> failedSecrets acc = []).
Proof.
  destruct (report_partitions_keys repo_world
              (sample_request ("A=1" ++ nl ++ "B=2"))
              "octo/site" "t0ken" ("A=1" ++ nl ++ "B=2") []
              [EvFetch (probe_request "octo/site" "t0ken");
               EvGetPublicKey "octo/site";
               EvFetch (repo_key_request "octo/site" "t0ken")]
              (answer 200 sample_key) (sample_key_info false)
              eq_refl eq_refl ltac:(discriminate) eq_refl)
    as [acc [log2 [_ [HPOST [Hnodup [_ [_ [_ Hsucc]]]]]]]].
  exists acc. rewrite HPOST. repeat split; try assumption; apply Hsucc.
Defined.

Section DiscoveryEvents.

Variable w : world.

(** Key discovery logs its call and its lookups, nothing else. *)
Lemma getPublicKey_events (repo pat : string) (log : list event) :
  exists more,
    snd (getPublicKey w repo pat log) = (log ++ more)%list
    /\ existsb is_per_key more = false
    /\ existsb is_parse more = false.
Proof.
  unfold getPublicKey, bind, emit, do_fetch, await, key_info_of, throw, ret.
  destruct (fetch w _ (repo_key_request repo pat)) as [r1|e1].
  - destruct (json r1) as [d1|e1].
    + destruct (status r1 =? 404)%Z.
      * destruct (fetch w _ (org_key_request (org_of repo) pat)) as [r2|e2];
          [destruct (json r2) as [[|k i]|e2];
           [destruct (status r2 =? 404)%Z| destruct (status r2 =? 404)%Z|]|];
          simpl; rewrite <- !app_assoc; eexists; (split; [reflexivity|]);
          split; reflexivity.
      * destruct d1; simpl; rewrite <- !app_assoc; eexists;
          (split; [reflexivity|]); split; reflexivity.
    + simpl; rewrite <- !app_assoc; eexists; (split; [reflexivity|]);
        split; reflexivity.
  - simpl; rewrite <- !app_assoc; eexists; (split; [reflexivity|]);
      split; reflexivity.
Qed.

End DiscoveryEvents.

(** C3. When the access probe answers 404 the handler returns the
    repository-access error, whose status 404 differs from the status 500
    of the generic failure, and the run has logged the probe only: no key
    discovery, no parsing, no encryption and no write. *)
Theorem inaccessible_repository_fails_fast (w : world) (req : next_request)
    (repo pat envText : string) (log0 : list event) (probe : response) :
  parseFormData req log0 = (Returned (repo, pat, envText), log0) ->
  fetch w log0 (probe_request repo pat) = Returned probe ->
  status probe = 404%Z ->
  let run := [EvFetch (probe_request repo pat)] in
  POST w req log0 = (Returned access_error, (log0 ++ run)%list)
  /\ payload access_error
     = {| success := false; variables := ["Repository access error"] |}
  /\ (forall e, http_status access_error <> http_status (internal_failure e))
  /\ existsb is_discovery run = false
  /\ existsb is_parse run = false
  /\ existsb is_per_key run = false.
Proof.
  intros Hform Hprobe Hstatus run.
  split; [|repeat split; intros e; discriminate].
  unfold POST, try_catch, bind at 1. rewrite Hform.
  unfold bind, do_fetch. rewrite Hprobe, Hstatus. reflexivity.
Qed.

(** A run of C3: a repository that the store does not know. *)
Lemma inaccessible_repository_fails_fast_witness :
  POST missing_world (sample_request "A=1") []
  = (Returned access_error, [EvFetch (probe_request "octo/site" "t0ken")]).
Proof.
  exact (proj1 (inaccessible_repository_fails_fast missing_world
                  (sample_request "A=1") "octo/site" "t0ken" "A=1" []
                  (answer 404 no_key) eq_refl eq_refl eq_refl)).
Defined.

Section EmptyMap.

(** X3. A text without any line of the form KEY=VALUE parses to the empty
    object. *)
Lemma no_matching_line_empty (envContent : string) :
  (forall l, In l (split "010" envContent) ->
             match_key_value (trim l) = None) ->
  parseEnvContent envContent = empty_object.
Proof.
  unfold parseEnvContent. intros H.
  assert (Hfold : fold_left parse_line (split "010" envContent) initial_state
                  = initial_state).
  { induction (split "010" envContent) as [|l lines IH]; [reflexivity|].
    simpl. assert (Hl : parse_line initial_state l = initial_state).
    { unfold parse_line. rewrite (H l (or_introl eq_refl)).
      destruct (is_empty (trim l) || startsWith "#" (trim l)); reflexivity. }
    rewrite Hl. apply IH. intros l' Hl'. apply H. now right. }
  rewrite Hfold. reflexivity.
Qed.

End EmptyMap.

(** C10. In a run that passes validation, the probe and key discovery,
    an env text that parses to the empty object leads to no encryption and
    no write: after key discovery the run logs the parsing only, and the
    handler answers 200 with success and an empty list of variables. *)
Theorem empty_map_reports_success (w : world) (req : next_request)
    (repo pat envText : string) (log0 log1 : list event) (probe : response)
    (keyInfo : key_info) :
  parseFormData req log0 = (Returned (repo, pat, envText), log0) ->
  fetch w log0 (probe_request repo pat) = Returned probe ->
  status probe <> 404%Z ->
  getPublicKey w repo pat (log0 ++ [EvFetch (probe_request repo pat)])%list
  = (Returned keyInfo, log1) ->
  parseEnvContent envText = empty_object ->
  POST w req log0
  = (Returned {| http_status := 200;
                 payload := {| success := true; variables := [] |} |},
     (log1 ++ [EvParseEnvContent envText])%list)
  /\ exists run,
       snd (POST w req log0) = (log0 ++ run)%list
       /\ existsb is_per_key run = false.
Proof.
  intros Hform Hprobe Hstatus Hkey Hempty.
  assert (HPOST : POST w req log0
                  = (Returned {| http_status := 200;
                                 payload := {| success := true; variables := [] |} |},
                     (log1 ++ [EvParseEnvContent envText])%list)).
  { rewrite (POST_after_probe w req repo pat envText log0 probe Hform Hprobe Hstatus).
    rewrite Hkey, Hempty. reflexivity. }
  split; [exact HPOST|].
  destruct (getPublicKey_events w repo pat
              (log0 ++ [EvFetch (probe_request repo pat)])%list)
    as [more [Hlog [Hper _]]].
  rewrite Hkey in Hlog. simpl in Hlog.
  exists ([EvFetch (probe_request repo pat)] ++ more ++ [EvParseEnvContent envText])%list.
  rewrite HPOST. simpl snd. rewrite Hlog. split.
  - now rewrite <- !app_assoc.
  - rewrite !existsb_app, Hper. reflexivity.
Qed.

(** A run of C10: an env text made of a comment. *)
Lemma empty_map_reports_success_witness :
  POST repo_world (sample_request "# nothing to store") []
  = (Returned {| http_status := 200;
                 payload := {| success := true; variables := [] |} |},
     [EvFetch (probe_request "octo/site" "t0ken");
      EvGetPublicKey "octo/site";
      EvFetch (repo_key_request "octo/site" "t0ken");
      EvParseEnvContent "# nothing to store"]).
Proof.
  exact (proj1 (empty_map_reports_success repo_world
                  (sample_request "# nothing to store")
                  "octo/site" "t0ken" "# nothing to store" []
                  [EvFetch (probe_request "octo/site" "t0ken");
                   EvGetPublicKey "octo/site";
                   EvFetch (repo_key_request "octo/site" "t0ken")]
                  (answer 200 sample_key) (sample_key_info false)
                  eq_refl eq_refl ltac:(discriminate) eq_refl eq_refl)).
Defined.

(** ** Runs in a world given by a per-key outcome *)

Section AssignedWorld.

Variable a : string -> attempt.
Variables repo pat : string.
Variable keyInfo : key_info.

Lemma current_key_call (log : list event) (k : string) :
  current_key (log ++ [EvSetSecret k]) = Some k.
Proof. unfold current_key. now rewrite fold_left_app. Qed.

Lemma current_key_encrypt (log : list event) (k v : string)
    (p : option string) :
  current_key ((log ++ [EvSetSecret k]) ++ [EvEncryptValue v p]) = Some k.
Proof. unfold current_key. now rewrite !fold_left_app. Qed.

(** The write of a key succeeds exactly when its assigned outcome is an
    accepted response. *)
Lemma assigned_outcome (key value : string) (log : list event) :
  match fst (setSecret (assigned_world a) key value repo pat keyInfo log) with
  | Returned s => ss_success s
  | Thrown _ => false
  end = accepted (a key).
Proof.
  rewrite setSecret_run. cbv zeta.
  cbn [assigned_world sodium_seal fetch].
  rewrite current_key_call, current_key_encrypt.
  destruct (a key); reflexivity.
Qed.

Lemma assigned_loop (entries : list (string * string)) :
  forall (acc : loop_state) (log : list event),
  exists rs more,
    process_secrets (assigned_world a) repo pat keyInfo entries acc log
    = (Returned (fold_left extend rs acc), (log ++ more)%list)
    /\ set_secret_calls more = map fst entries
    /\ Forall2 (fun r kv => r_key r = fst kv
                            /\ r_success r = accepted (a (fst kv)))
               rs entries.
Proof.
  induction entries as [|[key value] rest IH]; intros acc log.
  - exists [], []. simpl. unfold ret. rewrite app_nil_r. repeat split.
    constructor.
  - destruct (process_secret_total (assigned_world a) repo pat keyInfo
                acc key value log) as [r [Hr [Hk Hs]]].
    rewrite assigned_outcome in Hs.
    destruct (IH (extend acc r)
                (log ++ iteration_events (assigned_world a) repo pat keyInfo
                          key value log)%list)
      as [rs [more [Hrs [Hcalls Hall]]]].
    exists (r :: rs),
      (iteration_events (assigned_world a) repo pat keyInfo key value log
       ++ more)%list.
    split; [|split].
    + cbn [process_secrets]. unfold bind. rewrite Hr, Hrs.
      now rewrite app_assoc.
    + rewrite set_secret_calls_app, iteration_calls, Hcalls. reflexivity.
    + constructor; [split; assumption | assumption].
Qed.

Lemma keys_of_results (rs : list result_entry)
    (entries : list (string * string)) :
  Forall2 (fun r kv => r_key r = fst kv
                       /\ r_success r = accepted (a (fst kv))) rs entries ->
  map r_key rs = map fst entries
  /\ map r_key (filter r_success rs)
     = filter (fun k => accepted (a k)) (map fst entries)
  /\ map r_key (filter (fun r => negb (r_success r)) rs)
     = filter (fun k => negb (accepted (a k))) (map fst entries).
Proof.
  induction 1 as [|r kv rs entries [Hk Hs] _ [IH1 [IH2 IH3]]]; simpl.
  - repeat split.
  - rewrite Hs. destruct (accepted (a (fst kv))); simpl;
      rewrite Hk, IH1, IH2, IH3; repeat split.
Qed.

End AssignedWorld.

(** C2. Whatever outcome is assigned to each key, the loop never throws:
    it calls [setSecret] once for every entry, in order, adds one result
    per entry, puts in [failedSecrets] exactly the keys whose encryption
    or transport threw or whose response was not accepted, and puts the
    others in [successSecrets]. In particular, for three entries of which
    the second is answered with a status outside 200 to 299 and the others
    with 201, the succeeded keys are the first and the third, the failed
    key is the second and the report says failure. *)
Theorem failure_is_isolated (a : string -> attempt) (repo pat : string)
    (keyInfo : key_info) (log : list event) :
  (forall entries : list (string * string),
      exists acc more,
        process_secrets (assigned_world a) repo pat keyInfo entries
          initial_loop_state log
        = (Returned acc, (log ++ more)%list)
        /\ set_secret_calls more = map fst entries
        /\ map r_key (results acc) = map fst entries
        /\ failedSecrets acc
           = filter (fun k => negb (accepted (a k))) (map fst entries)
        /\ successSecrets acc
           = filter (fun k => accepted (a k)) (map fst entries)
        /\ (forall k e, In k (map fst entries) ->
                        a k = EncryptionThrows e \/ a k = TransportThrows e ->
                        In k (failedSecrets acc)))
  /\ (forall k1 k2 k3 v1 v2 v3 r1 r2 r3,
        a k1 = Responds r1 -> status r1 = 201%Z ->
        a k2 = Responds r2 -> (status r2 < 200 \/ 300 <= status r2)%Z ->
        a k3 = Responds r3 -> status r3 = 201%Z ->
        exists acc more,
          process_secrets (assigned_world a) repo pat keyInfo
            [(k1, v1); (k2, v2); (k3, v3)] initial_loop_state log
          = (Returned acc, (log ++ more)%list)
          /\ successSecrets acc = [k1; k3]
          /\ failedSecrets acc = [k2]
          /\ success (payload (report acc)) = false).
Proof.
  assert (General : forall entries : list (string * string),
      exists acc more,
        process_secrets (assigned_world a) repo pat keyInfo entries
          initial_loop_state log
        = (Returned acc, (log ++ more)%list)
        /\ set_secret_calls more = map fst entries
        /\ map r_key (results acc) = map fst entries
        /\ failedSecrets acc
           = filter (fun k => negb (accepted (a k))) (map fst entries)
        /\ successSecrets acc
           = filter (fun k => accepted (a k)) (map fst entries)).
  { intros entries.
    destruct (assigned_loop a repo pat keyInfo entries initial_loop_state log)
      as [rs [more [Hrun [Hcalls Hall]]]].
    destruct (keys_of_results a rs entries Hall) as [H1 [H2 H3]].
    exists (fold_left extend rs initial_loop_state), more.
    rewrite extend_results, extend_failed, extend_success. simpl.
    repeat split; assumption. }
  split.
  - intros entries.
    destruct (General entries) as [acc [more [Hrun [Hc [Hr [Hf Hs]]]]]].
    exists acc, more. repeat split; try assumption.
    intros k e Hin Hthrow. rewrite Hf. apply filter_In. split; [assumption|].
    destruct Hthrow as [-> | ->]; reflexivity.
  - intros k1 k2 k3 v1 v2 v3 r1 r2 r3 H1 S1 H2 S2 H3 S3.
    destruct (General [(k1, v1); (k2, v2); (k3, v3)])
      as [acc [more [Hrun [_ [_ [Hf Hs]]]]]].
    assert (A1 : accepted (a k1) = true) by (rewrite H1; simpl; now rewrite S1).
    assert (A3 : accepted (a k3) = true) by (rewrite H3; simpl; now rewrite S3).
    assert (A2 : accepted (a k2) = false).
    { rewrite H2. simpl. apply orb_false_iff. split; apply Z.eqb_neq; lia. }
    simpl in Hf, Hs. rewrite A1, A2, A3 in Hf, Hs. simpl in Hf, Hs.
    exists acc, more. repeat split; try assumption.
    unfold report. rewrite Hf. reflexivity.
Qed.

(** A run of C2: the store refuses B and creates A and C. *)
Lemma failure_is_isolated_witness :
  exists acc more,
    process_secrets (assigned_world refuse_B) "octo/site" "t0ken"
      (sample_key_info false) [("A", "1"); ("B", "2"); ("C", "3")]
      initial_loop_state []
    = (Returned acc, more)
    /\ successSecrets acc = ["A"; "C"]
    /\ failedSecrets acc = ["B"]
    /\ success (payload (report acc)) = false.
Proof.
  apply (proj2 (failure_is_isolated refuse_B "octo/site" "t0ken"
                  (sample_key_info false) [])
               "A" "B" "C" "1" "2" "3"
               (answer 201 no_key) (answer 500 no_key) (answer 201 no_key));
    try reflexivity.
  right. simpl. lia.
Defined.

(** ** Key discovery *)

Section Discovery.

Variable w : world.
Variables repo pat : string.

(** The resource-scoped lookup answers something other than 404. *)
Lemma getPublicKey_repo (log : list event) (r1 : response)
    (k i : option string) :
  fetch w (log ++ [EvGetPublicKey repo]) (repo_key_request repo pat)
  = Returned r1 ->
  status r1 <> 404%Z ->
  json r1 = Returned (JsonObject k i) ->
  getPublicKey w repo pat log
  = (Returned {| publicKey := k; keyId := i; isOrg := false |},
     ((log ++ [EvGetPublicKey repo])
      ++ [EvFetch (repo_key_request repo pat)])%list).
Proof.
  intros H1 S1 J1. apply Z.eqb_neq in S1.
  unfold getPublicKey, bind, emit, do_fetch, await.
  rewrite H1, J1, S1. reflexivity.
Qed.

(** The resource-scoped lookup answers 404 and the organization-scoped
    lookup answers something other than 404. *)
Lemma getPublicKey_org (log : list event) (r1 r2 : response)
    (d1 : json_value) (k i : option string) :
  fetch w (log ++ [EvGetPublicKey repo]) (repo_key_request repo pat)
  = Returned r1 ->
  status r1 = 404%Z ->
  json r1 = Returned d1 ->
  fetch w ((log ++ [EvGetPublicKey repo])
           ++ [EvFetch (repo_key_request repo pat)])
        (org_key_request (org_of repo) pat)
  = Returned r2 ->
  status r2 <> 404%Z ->
  json r2 = Returned (JsonObject k i) ->
  getPublicKey w repo pat log
  = (Returned {| publicKey := k; keyId := i; isOrg := true |},
     (((log ++ [EvGetPublicKey repo])
       ++ [EvFetch (repo_key_request repo pat)])
      ++ [EvFetch (org_key_request (org_of repo) pat)])%list).
Proof.
  intros H1 S1 J1 H2 S2 J2. apply Z.eqb_neq in S2.
  unfold getPublicKey, bind, emit, do_fetch, await.
  rewrite H1, J1, S1. cbn [Z.eqb Pos.eqb]. rewrite H2, J2, S2. reflexivity.
Qed.

(** Both lookups answer 404. *)
Lemma getPublicKey_neither (log : list event) (r1 r2 : response)
    (d1 d2 : json_value) :
  fetch w (log ++ [EvGetPublicKey repo]) (repo_key_request repo pat)
  = Returned r1 ->
  status r1 = 404%Z ->
  json r1 = Returned d1 ->
  fetch w ((log ++ [EvGetPublicKey repo])
           ++ [EvFetch (repo_key_request repo pat)])
        (org_key_request (org_of repo) pat)
  = Returned r2 ->
  status r2 = 404%Z ->
  json r2 = Returned d2 ->
  fst (getPublicKey w repo pat log)
  = Thrown (ThrownError "Neither repository nor organization public key found").
Proof.
  intros H1 S1 J1 H2 S2 J2.
  unfold getPublicKey, bind, emit, do_fetch, await.
  rewrite H1, J1, S1. cbn [Z.eqb Pos.eqb]. rewrite H2, J2, S2. reflexivity.
Qed.

End Discovery.

(** C5 fails as stated: a lookup refused with status 500, or with status
    403 at the organization-scoped lookup, is not surfaced as an error;
    key discovery returns a key information whose key and key identifier
    are undefined. *)
Lemma refused_lookup_is_not_an_error :
  fetch (refusing_world 500) [EvGetPublicKey "octo/site"]
        (repo_key_request "octo/site" "t0ken")
  = Returned (answer 500 no_key)
  /\ fst (getPublicKey (refusing_world 500) "octo/site" "t0ken" [])
     = Returned {| publicKey := None; keyId := None; isOrg := false |}
  /\ fst (getPublicKey (org_refusing_world 403) "octo/site" "t0ken" [])
     = Returned {| publicKey := None; keyId := None; isOrg := true |}
  /\ ~ (exists e, fst (getPublicKey (refusing_world 500) "octo/site" "t0ken" [])
                  = Thrown e).
Proof.
  repeat split. intros [e H]. discriminate H.
Qed.

(** C5, amended. Key discovery raises an error of its own only when both
    lookups answer 404, and that error carries a fixed message and no
    transport status. Any other response with a JSON object as body,
    successful or not, is taken as a key resolution: with the scope of the
    resource at the resource-scoped lookup, with the scope of the
    organization at the organization-scoped lookup that follows a 404; the
    key and its identifier are the fields [key] and [key_id] of the body,
    undefined when the body has none. *)
Theorem discovery_checks_not_found_only (w : world) (repo pat : string)
    (log : list event) (r1 : response) :
  fetch w (log ++ [EvGetPublicKey repo]) (repo_key_request repo pat)
  = Returned r1 ->
  (forall k i,
      status r1 <> 404%Z -> json r1 = Returned (JsonObject k i) ->
      fst (getPublicKey w repo pat log)
      = Returned {| publicKey := k; keyId := i; isOrg := false |})
  /\ (forall d1 r2,
        status r1 = 404%Z -> json r1 = Returned d1 ->
        fetch w ((log ++ [EvGetPublicKey repo])
                 ++ [EvFetch (repo_key_request repo pat)])
              (org_key_request (org_of repo) pat)
        = Returned r2 ->
        (forall k i,
            status r2 <> 404%Z -> json r2 = Returned (JsonObject k i) ->
            fst (getPublicKey w repo pat log)
            = Returned {| publicKey := k; keyId := i; isOrg := true |})
        /\ (forall d2,
              status r2 = 404%Z -> json r2 = Returned d2 ->
              fst (getPublicKey w repo pat log)
              = Thrown (ThrownError
                          "Neither repository nor organization public key found"))).
Proof.
  intros H1. split.
  - intros k i S1 J1. now rewrite (getPublicKey_repo w repo pat log r1 k i).
  - intros d1 r2 S1 J1 H2. split.
    + intros k i S2 J2.
      now rewrite (getPublicKey_org w repo pat log r1 r2 d1 k i).
    + intros d2 S2 J2.
      now apply (getPublicKey_neither w repo pat log r1 r2 d1 d2).
Qed.

(** Runs of the amended C5: a lookup refused with 403, and two 404. *)
Lemma discovery_checks_not_found_only_witness :
  fst (getPublicKey (refusing_world 403) "octo/site" "t0ken" [])
  = Returned {| publicKey := None; keyId := None; isOrg := false |}
  /\ fst (getPublicKey missing_world "octo/site" "t0ken" [])
     = Thrown (ThrownError "Neither repository nor organization public key found").
Proof.
  split.
  - apply (proj1 (discovery_checks_not_found_only (refusing_world 403)
                    "octo/site" "t0ken" [] (answer 403 no_key) eq_refl));
      [discriminate | reflexivity].
  - apply (proj2 (proj2 (discovery_checks_not_found_only missing_world
                           "octo/site" "t0ken" [] (answer 404 no_key) eq_refl)
                        no_key (answer 404 no_key) eq_refl eq_refl eq_refl)
                 no_key); reflexivity.
Defined.

(** ** Transport failures *)

(** C8 fails as stated: when the network is down [setSecret] returns no
    outcome at all, it throws; the entry recorded by the loop has neither
    a status nor a response body, and the message is in its error
    field. *)
Lemma transport_failure_has_no_status :
  fst (setSecret offline_world "A" "1" "octo/site" "t0ken"
         (sample_key_info false) [])
  = Thrown (ThrownError "fetch failed")
  /\ fst (process_secret offline_world "octo/site" "t0ken"
            (sample_key_info false) initial_loop_state ("A", "1") [])
     = Returned {| results :=
                     [{| r_key := "A"; r_success := false;
                         r_status := None; r_statusText := None;
                         r_response := None;
                         r_error := Some "fetch failed" |}];
                   failedSecrets := ["A"];
                   successSecrets := [] |}
  /\ ~ (exists outcome,
          fst (setSecret offline_world "A" "1" "octo/site" "t0ken"
                 (sample_key_info false) [])
          = Returned outcome).
Proof.
  repeat split. intros [outcome H]. discriminate H.
Qed.

(** C8, amended. When the encryption returns and the transport of the
    write request throws, [setSecret] throws the same value; the loop
    catches it, records for the key an entry with success false, the
    message of the error in the error field and no status, status text or
    response body, and adds the key to the failed keys. *)
Theorem transport_failure_is_recorded (w : world) (repo pat : string)
    (keyInfo : key_info) (acc : loop_state) (key value : string)
    (log : list event) (c : string) (e : thrown) :
  sodium_seal w (log ++ [EvSetSecret key]) value (publicKey keyInfo)
  = Returned c ->
  fetch w ((log ++ [EvSetSecret key])
           ++ [EvEncryptValue value (publicKey keyInfo)])
        (write_request repo pat key keyInfo c)
  = Thrown e ->
  fst (setSecret w key value repo pat keyInfo log) = Thrown e
  /\ fst (process_secret w repo pat keyInfo acc (key, value) log)
     = Returned {| results :=
                     (results acc
                      ++ [{| r_key := key; r_success := false;
                             r_status := None; r_statusText := None;
                             r_response := None;
                             r_error := Some (error_message e) |}])%list;
                   failedSecrets := (failedSecrets acc ++ [key])%list;
                   successSecrets := successSecrets acc |}.
Proof.
  intros Hseal Hfetch.
  assert (Hset : setSecret w key value repo pat keyInfo log
                 = (Thrown e,
                    (((log ++ [EvSetSecret key])
                      ++ [EvEncryptValue value (publicKey keyInfo)])
                     ++ [EvFetch (write_request repo pat key keyInfo c)])%list)).
  { rewrite setSecret_run. cbv zeta. rewrite Hseal, Hfetch. reflexivity. }
  split; [now rewrite Hset|].
  rewrite process_secret_run, Hset. reflexivity.
Qed.

(** A run of the amended C8: the network is down. *)
Lemma transport_failure_is_recorded_witness :
  fst (process_secret offline_world "octo/site" "t0ken"
         (sample_key_info true) initial_loop_state ("B", "2") [])
  = Returned {| results :=
                  [{| r_key := "B"; r_success := false;
                      r_status := None; r_statusText := None;
                      r_response := None;
                      r_error := Some "fetch failed" |}];
                failedSecrets := ["B"];
                successSecrets := [] |}.
Proof.
  exact (proj2 (transport_failure_is_recorded offline_world
                  "octo/site" "t0ken" (sample_key_info true)
                  initial_loop_state "B" "2" [] "sealed:2"
                  (ThrownError "fetch failed") eq_refl eq_refl)).
Defined.

(** * Further properties of the parser *)

Section MoreStringFacts.


Lemma all_chars_cons (p : ascii -> bool) (c : ascii) (s : string) :
  all_chars p (String c s) = p c && all_chars p s.
Proof.
  unfold all_chars. simpl. destruct (p c); [|reflexivity].
  destruct (span p s). reflexivity.
Qed.

Lemma all_chars_app (p : ascii -> bool) (a b : string) :
  all_chars p (a ++ b) = all_chars p a && all_chars p b.
Proof.
  induction a as [|c a IH]; [reflexivity|].
  simpl. rewrite !all_chars_cons, IH. apply andb_assoc.
Qed.

Lemma all_chars_impl (p q : ascii -> bool) (s : string) :
  (forall c, p c = true -> q c = true) ->
  all_chars p s = true -> all_chars q s = true.
Proof.
  intros Hpq. induction s as [|c s IH]; [reflexivity|].
  rewrite !all_chars_cons. intros H. apply andb_true_iff in H.
  destruct H as [Hc Hs]. now rewrite (Hpq c Hc), (IH Hs).
Qed.

(** The span of a class stops at the first character outside it. *)
Lemma span_all (p : ascii -> bool) (k : string) (c : ascii) (r : string) :
  all_chars p k = true -> p c = false ->
  span p (k ++ String c r) = (k, String c r).
Proof.
  intros Hk Hc. induction k as [|a k IH]; simpl.
  - now rewrite Hc.
  - rewrite all_chars_cons in Hk. apply andb_true_iff in Hk.
    destruct Hk as [Ha Hk]. now rewrite Ha, (IH Hk).
Qed.

Lemma span_all_full (p : ascii -> bool) (v : string) :
  all_chars p v = true -> fst (span p v) = v.
Proof.
  induction v as [|a v IH]; [reflexivity|].
  rewrite all_chars_cons. intros H. apply andb_true_iff in H.
  destruct H as [Ha Hv]. simpl. rewrite Ha.
  specialize (IH Hv). destruct (span p v). simpl in *. congruence.
Qed.

Lemma span_fst_all (p : ascii -> bool) (s : string) :
  all_chars p (fst (span p s)) = true.
Proof.
  induction s as [|a s IH]; [reflexivity|].
  simpl. destruct (p a) eqn:Ha; [|reflexivity].
  destruct (span p s). simpl in *. now rewrite all_chars_cons, Ha, IH.
Qed.

Lemma key_char_not_ws (c : ascii) : is_key_char c = true -> is_ws c = false.
Proof.
  destruct c as [[] [] [] [] [] [] [] []]; try reflexivity; discriminate.
Qed.

Lemma key_char_not_newline (c : ascii) :
  is_key_char c = true -> negb (Ascii.eqb c "010") = true.
Proof.
  destruct c as [[] [] [] [] [] [] [] []]; try reflexivity; discriminate.
Qed.



Lemma line_terminator_newline (c : ascii) :
  negb (is_line_terminator c) = true -> negb (Ascii.eqb c "010") = true.
Proof.
  destruct c as [[] [] [] [] [] [] [] []]; try reflexivity; discriminate.
Qed.

Lemma trimEnd_not_ws (c : ascii) (s : string) :
  is_ws c = false -> trimEnd (String c s) = String c (trimEnd s).
Proof. intros H. simpl. now rewrite H. Qed.

Lemma trimEnd_key_prefix (k s : string) :
  all_chars is_key_char k = true -> trimEnd (k ++ s) = k ++ trimEnd s.
Proof.
  induction k as [|a k IH]; [reflexivity|].
  rewrite all_chars_cons. intros H. apply andb_true_iff in H.
  destruct H as [Ha Hk]. cbn [append].
  rewrite (trimEnd_not_ws _ _ (key_char_not_ws a Ha)), (IH Hk). reflexivity.
Qed.



Lemma trimEnd_last_ws (s : string) (c : ascii) :
  is_ws c = true -> trimEnd (s ++ String c EmptyString) = trimEnd s.
Proof.
  intros Hc. induction s as [|a s IH]; simpl.
  - now rewrite Hc.
  - simpl in IH. now rewrite IH.
Qed.

(** White space at the end of a line is not seen by the parser. *)
Lemma trim_last_ws (s : string) (c : ascii) :
  is_ws c = true -> trim (s ++ String c EmptyString) = trim s.
Proof.
  intros Hc. unfold trim. induction s as [|a s IH]; simpl.
  - now rewrite Hc.
  - destruct (is_ws a); [exact IH|].
    change (String a (s ++ String c EmptyString))
      with (String a s ++ String c EmptyString).
    now apply trimEnd_last_ws.
Qed.

Lemma valid_key_inv (k : string) :
  valid_key k = true ->
  exists a k', k = String a k' /\ is_key_char a = true
               /\ all_chars is_key_char k = true.
Proof.
  unfold valid_key. intros H. apply andb_true_iff in H. destruct H as [Hne Hall].
  destruct k as [|a k']; [discriminate|].
  exists a, k'. repeat split; [|assumption].
  rewrite all_chars_cons in Hall. now apply andb_true_iff in Hall.
Qed.


(** [split] and [join] on lines without newline. *)
Lemma split_single (l : string) :
  no_newline l = true -> split "010" l = [l].
Proof.
  unfold no_newline. induction l as [|c l IH]; [reflexivity|].
  rewrite all_chars_cons. intros H. apply andb_true_iff in H.
  destruct H as [Hc Hl]. simpl.
  apply negb_true_iff in Hc. rewrite Hc, (IH Hl). reflexivity.
Qed.

Lemma split_app (a b : string) :
  split "010" (a ++ nl ++ b) = (split "010" a ++ split "010" b)%list.
Proof.
  induction a as [|c a IH]; [reflexivity|].
  cbn [append split]. rewrite IH.
  destruct (Ascii.eqb c "010"); [reflexivity|].
  destruct (split "010" a) as [|h t] eqn:E; [|reflexivity].
  destruct a; simpl in E; [discriminate|].
  destruct (Ascii.eqb a "010"); [discriminate|].
  destruct (split "010" a0); discriminate.
Qed.

Lemma split_join (lines : list string) :
  lines <> [] ->
  Forall (fun l => no_newline l = true) lines ->
  split "010" (join nl lines) = lines.
Proof.
  induction lines as [|l rest IH]; [congruence|].
  intros _ Hall. inversion Hall as [|? ? Hl Hrest]; subst.
  destruct rest as [|l' rest'].
  - simpl. now apply split_single.
  - change (join nl (l :: l' :: rest')) with (l ++ nl ++ join nl (l' :: rest')).
    rewrite split_app, (split_single l Hl), IH by (congruence || assumption).
    reflexivity.
Qed.

End MoreStringFacts.

Section MoreParserFacts.

Lemma match_key_value_line (k v : string) :
  valid_key k = true -> no_line_terminator v = true ->
  match_key_value (k ++ "=" ++ v) = Some (k, v).
Proof.
  intros Hk Hv. destruct (valid_key_inv k Hk) as [a [k' [-> [Ha Hall]]]].
  unfold match_key_value.
  change ("=" ++ v) with (String "="%char v).
  rewrite (span_all is_key_char (String a k') "="%char v Hall eq_refl).
  now rewrite (span_all_full _ v Hv).
Qed.

(** The groups of a matching line: a key of the class and a value
    without line terminator. *)
Lemma match_key_value_groups (line k v : string) :
  match_key_value line = Some (k, v) ->
  valid_key k = true /\ no_line_terminator v = true.
Proof.
  unfold match_key_value.
  pose proof (span_fst_all is_key_char line) as Hk.
  destruct (span is_key_char line) as [k0 rest]. simpl in Hk.
  destruct k0 as [|a k0]; [discriminate|].
  destruct rest as [|e after]; [discriminate|].
  destruct (Ascii.eqb_spec e "="%char) as [->|Hne].
  - intros H. injection H as <- <-. split.
    + unfold valid_key. now rewrite Hk.
    + apply span_fst_all.
  - intros H. exfalso. revert H.
    destruct e as [[] [] [] [] [] [] [] []]; try discriminate.
    now contradiction Hne.
Qed.

Lemma trim_key_line (k v : string) :
  valid_key k = true -> trimEnd v = v -> trim (k ++ "=" ++ v) = k ++ "=" ++ v.
Proof.
  intros Hk Hv. destruct (valid_key_inv k Hk) as [a [k' [-> [Ha Hall]]]].
  unfold trim. cbn [append trimStart]. rewrite (key_char_not_ws a Ha).
  change (String a (k' ++ String "="%char v))
    with (String a k' ++ String "="%char v).
  rewrite (trimEnd_key_prefix _ _ Hall).
  rewrite (trimEnd_not_ws "="%char v eq_refl), Hv. reflexivity.
Qed.

Lemma strip_quotes_plain (v : string) :
  match v with
  | EmptyString => true
  | String c _ => negb (is_quote c)
  end = true ->
  strip_quotes v = v.
Proof.
  destruct v as [|c r]; [reflexivity|].
  intros H. apply negb_true_iff in H. unfold strip_quotes.
  destruct (unsnoc r) as [[inner l]|]; [|reflexivity].
  now rewrite H.
Qed.

(** A line KEY=VALUE with a plain value, read in the scanning state, is
    one assignment of the value to the key. *)
Lemma plain_line (st : parser_state) (k v : string) :
  inValue st = false -> valid_key k = true -> plain_value v = true ->
  parse_line st (k ++ "=" ++ v)
  = {| result := obj_set (result st) k v; currentKey := EmptyString;
       inValue := false; value := EmptyString |}.
Proof.
  intros Hin Hk Hv. unfold plain_value in Hv.
  apply andb_true_iff in Hv. destruct Hv as [Hv Hq].
  apply andb_true_iff in Hv. destruct Hv as [Hlt Htrim].
  apply String.eqb_eq in Htrim.
  pose proof (match_key_value_line k v Hk Hlt) as Hm.
  unfold parse_line. rewrite (trim_key_line k v Hk Htrim).
  rewrite (match_not_skipped _ _ _ Hm), Hin, Hm.
  rewrite (strip_quotes_plain v Hq).
  destruct v as [|c r]; [reflexivity|].
  apply negb_true_iff in Hq. unfold is_quote in Hq.
  apply orb_false_iff in Hq. destruct Hq as [Hq _].
  cbn [startsWith dq]. rewrite Ascii.eqb_sym, Hq. reflexivity.
Qed.

Lemma plain_lines (entries : list (string * string)) :
  Forall plain_entry entries ->
  forall st, inValue st = false ->
  inValue (fold_left parse_line (map line_of entries) st) = false
  /\ result (fold_left parse_line (map line_of entries) st)
     = fold_left assign entries (result st).
Proof.
  induction 1 as [|[k v] entries [Hk Hv] _ IH]; intros st Hin.
  - now split.
  - cbn [map fold_left]. change (line_of (k, v)) with (k ++ "=" ++ v).
    rewrite (plain_line st k v Hin Hk Hv).
    destruct (IH {| result := obj_set (result st) k v;
                    currentKey := EmptyString; inValue := false;
                    value := EmptyString |} eq_refl) as [H1 H2].
    split; [exact H1 | exact H2].
Qed.

Lemma plain_line_no_newline (kv : string * string) :
  plain_entry kv -> no_newline (line_of kv) = true.
Proof.
  intros [Hk Hv]. unfold no_newline, line_of.
  destruct (valid_key_inv _ Hk) as [a [k' [_ [_ Hall]]]].
  unfold plain_value in Hv.
  apply andb_true_iff in Hv. destruct Hv as [Hv _].
  apply andb_true_iff in Hv. destruct Hv as [Hlt _].
  rewrite !all_chars_app. apply andb_true_iff. split.
  - eapply all_chars_impl; [|exact Hall]. apply key_char_not_newline.
  - apply andb_true_iff. split; [reflexivity|].
    eapply all_chars_impl; [|exact Hlt]. apply line_terminator_newline.
Qed.

Lemma define_own_fresh (o : object) (k v : string) :
  ~ In k (map fst o) -> define_own o k v = (o ++ [(k, v)])%list.
Proof.
  induction o as [|[k' v'] o IH]; simpl; intros Hk; [reflexivity|].
  destruct (String.eqb_spec k' k) as [->|Hne].
  - exfalso. apply Hk. now left.
  - rewrite IH; [reflexivity|]. intros Hin. apply Hk. now right.
Qed.

(** Assignments to fresh keys add the pairs at the end, in order. *)
Lemma assign_fresh (entries : list (string * string)) :
  forall o : object,
  NoDup (map fst o ++ map fst entries) ->
  Forall (fun kv => fst kv <> "__proto__") entries ->
  fold_left assign entries o = (o ++ entries)%list.
Proof.
  induction entries as [|[k v] entries IH]; intros o Hnd Hp; simpl.
  - now rewrite app_nil_r.
  - inversion Hp as [|? ? Hk Hrest]; subst. simpl in Hk.
    unfold assign at 2. cbn [fst snd]. unfold obj_set.
    destruct (String.eqb_spec k "__proto__") as [E|_]; [contradiction|].
    rewrite define_own_fresh.
    + rewrite IH; [now rewrite <- app_assoc | | assumption].
      rewrite map_app, <- app_assoc. exact Hnd.
    + intros Hin. simpl in Hnd. apply NoDup_remove_2 in Hnd.
      apply Hnd. apply in_or_app. now left.
Qed.

Lemma obj_set_keys (o : object) (k v k0 : string) :
  In k0 (map fst (obj_set o k v)) -> k0 = k \/ In k0 (map fst o).
Proof.
  unfold obj_set. destruct (String.eqb k "__proto__"); [now right|].
  rewrite define_own_keys.
  destruct (existsb (String.eqb k) (map fst o)); [now right|].
  intros H. apply in_app_or in H. destruct H as [H|[<-|[]]]; auto.
Qed.

Lemma obj_set_valid (o : object) (k v : string) :
  valid_key k = true ->
  Forall (fun k => valid_key k = true) (map fst o) ->
  Forall (fun k => valid_key k = true) (map fst (obj_set o k v)).
Proof.
  intros Hk Ho. apply Forall_forall. intros k0 Hin.
  destruct (obj_set_keys _ _ _ _ Hin) as [->|H]; [assumption|].
  rewrite Forall_forall in Ho. now apply Ho.
Qed.

Lemma parse_line_well_formed (st : parser_state) (raw : string) :
  well_formed st -> well_formed (parse_line st raw).
Proof.
  intros [Hkey Hres]. unfold parse_line.
  destruct (is_empty (trim raw) || startsWith "#" (trim raw)); [now split|].
  destruct (inValue st) eqn:Hin; cbn [negb].
  - destruct (endsWith dq (trim raw) && negb (endsWith (bs ++ dq) (trim raw)));
      split; cbn [inValue currentKey result]; try discriminate; auto.
    apply obj_set_valid; auto.
  - destruct (match_key_value (trim raw)) as [[k v]|] eqn:Hm;
      [|split; [rewrite Hin; discriminate | assumption]].
    destruct (match_key_value_groups _ _ _ Hm) as [Hk _].
    destruct (startsWith dq v && negb (endsWith dq v)
              && negb (endsWith (bs ++ dq) v));
      split; cbn [inValue currentKey result]; try discriminate; auto.
    apply obj_set_valid; auto.
Qed.

Lemma fold_well_formed (lines : list string) (st : parser_state) :
  well_formed st -> well_formed (fold_left parse_line lines st).
Proof.
  revert st. induction lines as [|l lines IH]; intros st H; [assumption|].
  simpl. apply IH. now apply parse_line_well_formed.
Qed.

Lemma initial_well_formed : well_formed initial_state.
Proof. split; [discriminate | constructor]. Qed.

Lemma valid_key_not_empty (k : string) :
  valid_key k = true -> is_empty k = false.
Proof.
  unfold valid_key. intros H. apply andb_true_iff in H.
  now apply negb_true_iff.
Qed.

(** Skipped lines leave the state as it is. *)
Lemma fold_skipped (lines : list string) (st : parser_state) :
  Forall (fun l => skipped l = true) lines ->
  fold_left parse_line lines st = st.
Proof.
  induction 1 as [|l lines Hl _ IH]; [reflexivity|].
  simpl. unfold parse_line at 2. unfold skipped in Hl. now rewrite Hl.
Qed.

(** The loop sees a line through its trimmed form only. *)
Lemma fold_same_trim (l1 l2 : list string) :
  Forall2 (fun a b => trim a = trim b) l1 l2 ->
  forall st, fold_left parse_line l1 st = fold_left parse_line l2 st.
Proof.
  induction 1 as [|a b l1 l2 Hab _ IH]; intros st; [reflexivity|].
  simpl. unfold parse_line at 2 4. rewrite Hab. apply IH.
Qed.

Lemma split_to_crlf (t : string) :
  Forall2 (fun a b => a = b \/ a = b ++ String "013" EmptyString)
          (split "010" (to_crlf t)) (split "010" t).
Proof.
  induction t as [|c t IH]; [repeat constructor|].
  cbn [to_crlf split]. destruct (Ascii.eqb c "010") eqn:Hc.
  - cbn [split Ascii.eqb Bool.eqb]. cbn.
    destruct (split "010" (to_crlf t)) as [|h tl] eqn:E;
      inversion IH; subst; constructor; auto; constructor; auto.
  - cbn [split]. rewrite Hc.
    destruct (split "010" (to_crlf t)) as [|h tl];
      inversion IH as [|? h' ? tl' Hh Htl]; subst.
    + constructor; [now left | constructor].
    + constructor; [|assumption].
      destruct Hh as [->| ->]; [now left | now right].
Qed.

End MoreParserFacts.

Section ParserRoundTrips.


Lemma proto_never_defined (cs : list (string * string)) (o : object) :
  ~ In "__proto__" (map fst o) ->
  ~ In "__proto__" (map fst (fold_left assign cs o)).
Proof.
  revert o. induction cs as [|c cs IH]; intros o Ho; [assumption|].
  simpl. apply IH. intros Hin.
  destruct (obj_set_keys _ _ _ _ Hin) as [E|H]; [|contradiction].
  unfold assign, obj_set in Hin. rewrite <- E in Hin.
  cbn in Hin. contradiction.
Qed.





End ParserRoundTrips.

(** A key assigned twice and a key assigned once. *)
Lemma last_write_wins_witness :
  obj_get (parseEnvContent ("A=1" ++ nl ++ "B=x" ++ nl ++ "A=2")) "A"
  = Some "2".
Proof.
  rewrite (last_write_wins ("A=1" ++ nl ++ "B=x" ++ nl ++ "A=2") "A");
    [reflexivity | discriminate].
Defined.

(** X2. The keys of the parsed object are pairwise distinct, each of them
    is a non-empty string of letters, digits and underscores, and none is
    [__proto__]. *)
Theorem parsed_keys_are_names (envContent : string) :
  let keys := map fst (parseEnvContent envContent) in
  NoDup keys
  /\ Forall (fun k => valid_key k = true) keys
  /\ ~ In "__proto__" keys.
Proof.
  cbv zeta. split; [apply parseEnvContent_NoDup|]. split.
  - unfold parseEnvContent.
    pose proof (fold_well_formed (split "010" envContent) initial_state
                  initial_well_formed) as [Hkey Hres].
    unfold finish.
    destruct (inValue (fold_left parse_line (split "010" envContent)
                         initial_state)) eqn:Hin; [|exact Hres].
    rewrite (valid_key_not_empty _ (Hkey eq_refl)). cbn [negb andb].
    now apply obj_set_valid; [apply Hkey|].
  - unfold parseEnvContent. rewrite parser_assignments.
    apply proto_never_defined. intros [].
Qed.

(** A text of comments and non-matching lines. *)
Lemma no_matching_line_empty_witness :
  parseEnvContent ("# settings" ++ nl ++ nl ++ "export A 1") = empty_object.
Proof.
  apply no_matching_line_empty.
  intros l [<-|[<-|[<-|[]]]]; reflexivity.
Defined.

(** X4. Lines that are blank once trimmed and comment lines can be added
    or removed anywhere in the text, also inside a multi-line value,
    without any change to the parsed object. *)
Theorem skipped_lines_do_not_count (a c b : string) :
  Forall (fun l => skipped l = true) (split "010" c) ->
  parseEnvContent (a ++ nl ++ c ++ nl ++ b) = parseEnvContent (a ++ nl ++ b)
  /\ parseEnvContent (c ++ nl ++ b) = parseEnvContent b
  /\ parseEnvContent (a ++ nl ++ c) = parseEnvContent a.
Proof.
  intros Hc. unfold parseEnvContent.
  rewrite !split_app, !fold_left_app.
  now rewrite !(fold_skipped _ _ Hc).
Qed.

Lemma skipped_lines_do_not_count_witness :
  parseEnvContent ("A=1" ++ nl ++ ("  " ++ nl ++ "# note") ++ nl ++ "B=2")
  = parseEnvContent ("A=1" ++ nl ++ "B=2").
Proof.
  apply (skipped_lines_do_not_count "A=1" ("  " ++ nl ++ "# note") "B=2").
  repeat constructor.
Defined.

(** X5. A text with Windows line ends, a carriage return before every
    newline, parses to the same object as the text with plain newlines. *)
Theorem crlf_is_lf (envContent : string) :
  parseEnvContent (to_crlf envContent) = parseEnvContent envContent.
Proof.
  unfold parseEnvContent. f_equal. apply fold_same_trim.
  eapply Forall2_impl; [|apply split_to_crlf].
  intros a b [->| ->]; [reflexivity|]. now apply trim_last_ws.
Qed.

(** The properties created by the text with one line KEY=VALUE per pair,
    in the order of their creation. *)
Lemma plain_file_properties (entries : list (string * string)) :
  Forall plain_entry entries ->
  Forall (fun kv => fst kv <> "__proto__") entries ->
  NoDup (map fst entries) ->
  parseEnvContent (render entries) = entries.
Proof.
  intros Hplain Hproto Hnd.
  destruct entries as [|e entries']; [reflexivity|].
  set (entries := e :: entries') in *.
  unfold parseEnvContent, render.
  rewrite split_join.
  - destruct (plain_lines entries Hplain initial_state eq_refl) as [Hin Hres].
    unfold finish. rewrite Hin, Hres. cbn [andb].
    now apply (assign_fresh entries empty_object).
  - discriminate.
  - apply Forall_map. eapply Forall_impl; [|exact Hplain].
    apply plain_line_no_newline.
Qed.



(** X8. A multi-line value that is still open at the end of the text is
    never dropped: the remembered key is a key of the pattern, the buffer
    is assigned to it, and the parsed object binds it to the buffer unless
    the key is [__proto__]. *)
Theorem unterminated_value_is_stored (envContent : string) :
  let st := fold_left parse_line (split "010" envContent) initial_state in
  inValue st = true ->
  valid_key (currentKey st) = true
  /\ parseEnvContent envContent
     = obj_set (result st) (currentKey st) (value st)
  /\ (currentKey st <> "__proto__" ->
      obj_get (parseEnvContent envContent) (currentKey st)
      = Some (value st)).
Proof.
  intros st Hin.
  pose proof (fold_well_formed (split "010" envContent) initial_state
                initial_well_formed) as [Hkey _].
  fold st in Hkey. specialize (Hkey Hin).
  assert (Hparse : parseEnvContent envContent
                   = obj_set (result st) (currentKey st) (value st)).
  { unfold parseEnvContent. fold st. unfold finish.
    now rewrite Hin, (valid_key_not_empty _ Hkey). }
  repeat split; [assumption | assumption |].
  intros Hp. rewrite Hparse. now apply obj_get_set_same.
Qed.

Lemma unterminated_value_is_stored_witness :
  obj_get (parseEnvContent ("A=1" ++ nl ++ "KEY=" ++ dq ++ "-----BEGIN"
                            ++ nl ++ "abc")) "KEY"
  = Some ("-----BEGIN" ++ nl ++ "abc").
Proof.
  apply (unterminated_value_is_stored
           ("A=1" ++ nl ++ "KEY=" ++ dq ++ "-----BEGIN" ++ nl ++ "abc")
           eq_refl).
  discriminate.
Defined.



(** * Further properties of the handler *)

Section MoreHandlerFacts.

Variable w : world.

Lemma startsWith_append (p s : string) : startsWith p (p ++ s) = true.
Proof.
  induction p as [|c p IH]; [destruct s; reflexivity|].
  simpl. now rewrite Ascii.eqb_refl, IH.
Qed.

(** The first component of a split is the text before the first
    separator. *)
Lemma hd_split (sep : ascii) (owner rest : string) :
  all_chars (fun c => negb (Ascii.eqb c sep)) owner = true ->
  hd EmptyString (split sep (owner ++ String sep rest)) = owner.
Proof.
  induction owner as [|c owner IH]; simpl.
  - now rewrite Ascii.eqb_refl.
  - rewrite all_chars_cons. intros H. apply andb_true_iff in H.
    destruct H as [Hc Ho]. apply negb_true_iff in Hc. rewrite Hc.
    specialize (IH Ho).
    destruct (split sep (owner ++ String sep rest)); simpl in *; congruence.
Qed.

Lemma hd_split_none (sep : ascii) (s : string) :
  all_chars (fun c => negb (Ascii.eqb c sep)) s = true ->
  hd EmptyString (split sep s) = s.
Proof.
  induction s as [|c s IH]; [reflexivity|].
  rewrite all_chars_cons. intros H. apply andb_true_iff in H.
  destruct H as [Hc Hs]. apply negb_true_iff in Hc. simpl. rewrite Hc.
  specialize (IH Hs). destruct (split sep s); simpl in *; congruence.
Qed.

(** The requests of key discovery are its two lookups. *)
Lemma getPublicKey_requests (repo pat : string) (log : list event) :
  exists more,
    snd (getPublicKey w repo pat log) = (log ++ more)%list
    /\ writes more = []
    /\ set_secret_calls more = []
    /\ forall q, In (EvFetch q) more ->
                 q = repo_key_request repo pat
                 \/ q = org_key_request (org_of repo) pat.
Proof.
  assert (Two : forall l : list event,
             (forall q, In (EvFetch q)
                          [EvGetPublicKey repo;
                           EvFetch (repo_key_request repo pat);
                           EvFetch (org_key_request (org_of repo) pat)] ->
                        q = repo_key_request repo pat
                        \/ q = org_key_request (org_of repo) pat)
             /\ (forall q, In (EvFetch q)
                             [EvGetPublicKey repo;
                              EvFetch (repo_key_request repo pat)] ->
                           q = repo_key_request repo pat
                           \/ q = org_key_request (org_of repo) pat)).
  { intros _. split; intros q H; simpl in H;
      repeat (destruct H as [H|H]; [try discriminate H; injection H as <-; auto|]);
      contradiction. }
  destruct (Two []) as [T3 T2].
  unfold getPublicKey, bind, emit, do_fetch, await, key_info_of, throw, ret.
  destruct (fetch w _ (repo_key_request repo pat)) as [r1|e1].
  - destruct (json r1) as [d1|e1].
    + destruct (status r1 =? 404)%Z.
      * destruct (fetch w _ (org_key_request (org_of repo) pat)) as [r2|e2];
          [destruct (json r2) as [[|k i]|e2];
           [destruct (status r2 =? 404)%Z| destruct (status r2 =? 404)%Z|]|];
          simpl; rewrite <- !app_assoc; eexists;
          (split; [reflexivity|]); repeat split; exact T3.
      * destruct d1; simpl; rewrite <- !app_assoc; eexists;
          (split; [reflexivity|]); repeat split; exact T2.
    + simpl; rewrite <- !app_assoc; eexists; (split; [reflexivity|]);
        repeat split; exact T2.
  - simpl; rewrite <- !app_assoc; eexists; (split; [reflexivity|]);
      repeat split; exact T2.
Qed.

Lemma writes_app (l1 l2 : list event) :
  writes (l1 ++ l2) = (writes l1 ++ writes l2)%list.
Proof. apply flat_map_app. Qed.

Lemma filter_all {A} (f : A -> bool) (l : list A) :
  filter (fun x => negb (f x)) l = [] -> filter f l = l.
Proof.
  induction l as [|x l IH]; [reflexivity|].
  simpl. destruct (f x); simpl; [|discriminate].
  intros H. now rewrite IH.
Qed.

Lemma map_nil_inv {A B} (f : A -> B) (l : list A) : map f l = [] -> l = [].
Proof. destruct l; [reflexivity | discriminate]. Qed.

Lemma sort_by_index_nil : sort_by_index [] = [].
Proof. reflexivity. Qed.

(** Without array-index keys the enumeration is the creation order. *)
Lemma Object_entries_names (o : object) :
  Forall (fun e => is_index_entry e = false) o -> Object_entries o = o.
Proof.
  intros H. unfold Object_entries.
  assert (H1 : filter is_index_entry o = []).
  { induction H as [|e o He _ IH]; [reflexivity|]. simpl. now rewrite He. }
  assert (H2 : filter (fun e => negb (is_index_entry e)) o = o).
  { induction H as [|e o He _ IH]; [reflexivity|]. simpl.
    rewrite He. simpl. f_equal. apply IH.
    simpl in H1. now rewrite He in H1. }
  now rewrite H1, H2.
Qed.

(** What the handler does before the probe. *)
Lemma POST_invalid_form (req : next_request) (log0 : list event)
    (e : thrown) :
  parseFormData req log0 = (Thrown e, log0) ->
  POST w req log0 = (Returned (internal_failure e), log0).
Proof.
  intros H. unfold POST, try_catch, bind at 1. now rewrite H.
Qed.

End MoreHandlerFacts.

(** X10. A request whose form cannot be decoded, or lacks one of the
    fields repo, pat and env, or has one of them empty, is answered with
    status 500 and the reason as the only variable, without any outbound
    request or other work. *)
Theorem invalid_form_is_rejected (w : world) (req : next_request)
    (log0 : list event) :
  (forall form,
      formData req = Returned form ->
      missing (form_repo form) || missing (form_pat form)
      || missing (form_env form) = true ->
      POST w req log0
      = (Returned {| http_status := 500;
                     payload :=
                       {| success := false;
                          variables :=
                            ["Missing required parameters: repo, pat, or env"]
                       |} |},
         log0))
  /\ (forall e,
        formData req = Thrown e ->
        POST w req log0
        = (Returned {| http_status := 500;
                       payload := {| success := false;
                                     variables := [error_message e] |} |},
           log0)).
Proof.
  split.
  - intros form Hform Hmissing.
    apply (POST_invalid_form w req log0
             (ThrownError "Missing required parameters: repo, pat, or env")).
    unfold parseFormData, bind, await. now rewrite Hform, Hmissing.
  - intros e Hform. apply (POST_invalid_form w req log0 e).
    unfold parseFormData, bind, await. now rewrite Hform.
Qed.

Lemma invalid_form_is_rejected_witness :
  POST repo_world
    {| formData := Returned {| form_repo := Some "octo/site";
                               form_pat := Some EmptyString;
                               form_env := Some "A=1" |} |} []
  = (Returned {| http_status := 500;
                 payload :=
                   {| success := false;
                      variables :=
                        ["Missing required parameters: repo, pat, or env"]
                   |} |},
     []).
Proof.
  apply (proj1 (invalid_form_is_rejected repo_world _ [])
               {| form_repo := Some "octo/site";
                  form_pat := Some EmptyString;
                  form_env := Some "A=1" |});
    reflexivity.
Defined.

(** X11. When key discovery throws, after a probe that did not answer
    404, the handler answers with status 500 and the message of the error
    as the only variable; the env text is not parsed and nothing is
    encrypted or written. In particular two 404 answers to the lookups
    give the message that neither key was found. *)
Theorem discovery_failure_aborts (w : world) (req : next_request)
    (repo pat envText : string) (log0 log1 : list event) (probe : response)
    (e : thrown) :
  parseFormData req log0 = (Returned (repo, pat, envText), log0) ->
  fetch w log0 (probe_request repo pat) = Returned probe ->
  status probe <> 404%Z ->
  getPublicKey w repo pat (log0 ++ [EvFetch (probe_request repo pat)])%list
  = (Thrown e, log1) ->
  POST w req log0
  = (Returned {| http_status := 500;
                 payload := {| success := false;
                               variables := [error_message e] |} |},
     log1)
  /\ exists run,
       log1 = (log0 ++ run)%list
       /\ existsb is_parse run = false
       /\ existsb is_per_key run = false.
Proof.
  intros Hform Hprobe Hstatus Hkey. split.
  - rewrite (POST_after_probe w req repo pat envText log0 probe
               Hform Hprobe Hstatus).
    now rewrite Hkey.
  - destruct (getPublicKey_events w repo pat
                (log0 ++ [EvFetch (probe_request repo pat)])%list)
      as [more [Hlog [Hper Hparse]]].
    rewrite Hkey in Hlog. simpl in Hlog.
    exists ([EvFetch (probe_request repo pat)] ++ more)%list.
    rewrite Hlog, <- app_assoc. repeat split.
    + rewrite existsb_app, Hparse. reflexivity.
    + rewrite existsb_app, Hper. reflexivity.
Qed.

Lemma discovery_failure_aborts_witness :
  fst (POST keyless_world (sample_request "A=1") [])
  = Returned {| http_status := 500;
                payload :=
                  {| success := false;
                     variables :=
                       ["Neither repository nor organization public key found"]
                  |} |}.
Proof.
  rewrite (proj1 (discovery_failure_aborts keyless_world (sample_request "A=1")
                    "octo/site" "t0ken" "A=1" []
                    [EvFetch (probe_request "octo/site" "t0ken");
                     EvGetPublicKey "octo/site";
                     EvFetch (repo_key_request "octo/site" "t0ken");
                     EvFetch (org_key_request "octo" "t0ken")]
                    (answer 200 no_key)
                    (ThrownError
                       "Neither repository nor organization public key found")
                    eq_refl eq_refl ltac:(discriminate) eq_refl)).
  reflexivity.
Defined.

(** X12. The handler always answers: whatever the request and the
    world, it returns a response and throws nothing; the status of the
    response is 200, 404 or 500, and a response that reports success has
    status 200. *)
Theorem POST_always_answers (w : world) (req : next_request)
    (log : list event) :
  exists resp log',
    POST w req log = (Returned resp, log')
    /\ (http_status resp = 200%Z \/ http_status resp = 404%Z
        \/ http_status resp = 500%Z)
    /\ (success (payload resp) = true -> http_status resp = 200%Z).
Proof.
  unfold POST, try_catch.
  match goal with
  | |- context [match ?body log with _ => _ end] =>
      destruct (body log) as [[resp|e] log'] eqn:Hbody
  end.
  - exists resp, log'. split; [reflexivity|].
    unfold bind at 1 in Hbody.
    destruct (parseFormData req log) as [[[[repo pat] envText]|e] l1];
      [|discriminate].
    unfold bind at 1, do_fetch in Hbody.
    destruct (fetch w l1 (probe_request repo pat)) as [probe|e];
      [|discriminate].
    destruct (status probe =? 404)%Z.
    + injection Hbody as <- _. split; [auto | discriminate].
    + unfold bind at 1 in Hbody.
      destruct (getPublicKey w repo pat _) as [[keyInfo|e] l2];
        [|discriminate].
      unfold bind at 1 in Hbody. unfold bind at 1, emit, ret in Hbody.
      unfold bind in Hbody.
      destruct (process_secrets w repo pat keyInfo _ _ _) as [[acc|e] l3];
        [|discriminate].
      injection Hbody as <- _. unfold report.
      destruct (List.length (failedSecrets acc) =? 0)%nat; simpl; auto.
  - exists (internal_failure e), log'. split; [reflexivity|].
    split; [auto | discriminate].
Qed.

(** X14. In a run that reaches the loop, in any world, [setSecret] is
    called exactly once for every key of the parsed object, in the order
    of the enumeration, whatever fails on the way; when no key is an
    array index this is the order in which the keys were first assigned
    in the text. *)
Theorem every_key_is_attempted_once (w : world) (req : next_request)
    (repo pat envText : string) (log0 log1 : list event) (probe : response)
    (keyInfo : key_info) :
  parseFormData req log0 = (Returned (repo, pat, envText), log0) ->
  fetch w log0 (probe_request repo pat) = Returned probe ->
  status probe <> 404%Z ->
  getPublicKey w repo pat (log0 ++ [EvFetch (probe_request repo pat)])%list
  = (Returned keyInfo, log1) ->
  let secrets := parseEnvContent envText in
  exists run,
    snd (POST w req log0) = (log0 ++ run)%list
    /\ set_secret_calls run = map fst (Object_entries secrets)
    /\ (Forall (fun e => is_index_entry e = false) secrets ->
        set_secret_calls run = map fst secrets).
Proof.
  intros Hform Hprobe Hstatus Hkey secrets.
  destruct (process_secrets_total w repo pat keyInfo (Object_entries secrets)
              initial_loop_state (log1 ++ [EvParseEnvContent envText])%list)
    as [rs [more [Hrun [_ [Hcalls _]]]]].
  destruct (getPublicKey_requests w repo pat
              (log0 ++ [EvFetch (probe_request repo pat)])%list)
    as [disc [Hlog [_ [Hnone _]]]].
  rewrite Hkey in Hlog. simpl in Hlog.
  exists ([EvFetch (probe_request repo pat)] ++ disc
          ++ [EvParseEnvContent envText] ++ more)%list.
  assert (Hc : set_secret_calls
                 ([EvFetch (probe_request repo pat)] ++ disc
                  ++ [EvParseEnvContent envText] ++ more)
               = map fst (Object_entries secrets)).
  { rewrite !set_secret_calls_app, Hnone, Hcalls. reflexivity. }
  split; [|split].
  - rewrite (POST_after_probe w req repo pat envText log0 probe
               Hform Hprobe Hstatus), Hkey.
    fold secrets. rewrite Hrun. simpl snd. rewrite Hlog.
    now rewrite <- !app_assoc.
  - exact Hc.
  - intros Hnames. rewrite Hc. now rewrite (Object_entries_names _ Hnames).
Qed.

Lemma every_key_is_attempted_once_witness :
  exists run,
    snd (POST offline_world_after_discovery
           (sample_request ("B=2" ++ nl ++ "A=1" ++ nl ++ "C=3")) []) = run
    /\ set_secret_calls run = ["B"; "A"; "C"].
Proof.
  destruct (every_key_is_attempted_once offline_world_after_discovery
              (sample_request ("B=2" ++ nl ++ "A=1" ++ nl ++ "C=3"))
              "octo/site" "t0ken" ("B=2" ++ nl ++ "A=1" ++ nl ++ "C=3") []
              [EvFetch (probe_request "octo/site" "t0ken");
               EvGetPublicKey "octo/site";
               EvFetch (repo_key_request "octo/site" "t0ken")]
              (answer 200 sample_key) (sample_key_info false)
              eq_refl eq_refl ltac:(discriminate) eq_refl)
    as [run [Hrun [Hcalls _]]].
  exists run. split; [exact Hrun | exact Hcalls].
Defined.

(** The requests of a run whose form is valid. *)
Lemma POST_requests (w : world) (req : next_request)
    (repo pat envText : string) (log0 : list event) :
  parseFormData req log0 = (Returned (repo, pat, envText), log0) ->
  exists run,
    snd (POST w req log0) = (log0 ++ run)%list
    /\ forall q, In (EvFetch q) run ->
                 q = probe_request repo pat
                 \/ q = repo_key_request repo pat
                 \/ q = org_key_request (org_of repo) pat
                 \/ exists key c keyInfo,
                      q = write_request repo pat key keyInfo c.
Proof.
  intros Hform.
  assert (Hp : forall q, In (EvFetch q) [EvFetch (probe_request repo pat)] ->
                         q = probe_request repo pat
                         \/ q = repo_key_request repo pat
                         \/ q = org_key_request (org_of repo) pat
                         \/ exists key c keyInfo,
                              q = write_request repo pat key keyInfo c).
  { intros q [H|[]]. injection H as <-. now left. }
  unfold POST, try_catch, bind at 1. rewrite Hform.
  unfold bind at 1, do_fetch.
  destruct (fetch w log0 (probe_request repo pat)) as [probe|e].
  - destruct (status probe =? 404)%Z.
    + exists [EvFetch (probe_request repo pat)]. split; [reflexivity|exact Hp].
    + unfold bind at 1.
      destruct (getPublicKey_requests w repo pat
                  (log0 ++ [EvFetch (probe_request repo pat)])%list)
        as [disc [Hlog [_ [_ Hdisc]]]].
      destruct (getPublicKey w repo pat _) as [[keyInfo|e] l1];
        simpl in Hlog; subst l1.
      * unfold bind at 1. unfold bind at 1, emit, ret. unfold bind.
        destruct (process_secrets_total w repo pat keyInfo
                    (Object_entries (parseEnvContent envText))
                    initial_loop_state
                    (((log0 ++ [EvFetch (probe_request repo pat)]) ++ disc)
                     ++ [EvParseEnvContent envText])%list)
          as [rs [more [Hrun [_ [_ [Hq _]]]]]].
        rewrite Hrun.
        exists ([EvFetch (probe_request repo pat)] ++ disc
                ++ [EvParseEnvContent envText] ++ more)%list.
        split; [simpl snd; now rewrite <- !app_assoc|].
        intros q Hin. apply in_app_or in Hin. destruct Hin as [Hin|Hin];
          [now apply Hp|].
        apply in_app_or in Hin. destruct Hin as [Hin|Hin].
        { destruct (Hdisc q Hin) as [->| ->]; auto. }
        apply in_app_or in Hin. destruct Hin as [[Hin|[]]|Hin];
          [discriminate|].
        destruct (Hq q Hin) as [key [c [_ ->]]].
        right. right. right. now exists key, c, keyInfo.
      * exists ([EvFetch (probe_request repo pat)] ++ disc)%list.
        split; [simpl snd; now rewrite <- !app_assoc|].
        intros q Hin. apply in_app_or in Hin. destruct Hin as [Hin|Hin];
          [now apply Hp|].
        destruct (Hdisc q Hin) as [->| ->]; auto.
  - exists [EvFetch (probe_request repo pat)]. split; [reflexivity|exact Hp].
Qed.

(** X15. Every outbound request of a run goes to a URL that starts with
    https://api.github.com and carries the credential of the form in its
    Authorization header; the requests without a body are the reads, the
    requests with a body the writes. *)
Theorem requests_go_to_the_store (w : world) (req : next_request)
    (repo pat envText : string) (log0 : list event) :
  parseFormData req log0 = (Returned (repo, pat, envText), log0) ->
  exists run,
    snd (POST w req log0) = (log0 ++ run)%list
    /\ forall q, In (EvFetch q) run ->
                 startsWith "https://api.github.com" (url q) = true
                 /\ In ("Authorization", "token " ++ pat) (headers q)
                 /\ (method q = GET <-> body q = None).
Proof.
  intros Hform.
  destruct (POST_requests w req repo pat envText log0 Hform)
    as [run [Hrun Hq]].
  exists run. split; [exact Hrun|].
  intros q Hin.
  destruct (Hq q Hin) as [->|[->|[->|[key [c [keyInfo ->]]]]]].
  - repeat split; try (now left); reflexivity.
  - repeat split; try (now left); reflexivity.
  - repeat split; try (now left); reflexivity.
  - unfold write_request, secret_url. cbn [url headers method body].
    split; [destruct (isOrg keyInfo); apply (startsWith_append api)|].
    split; [now left|]. split; discriminate.
Qed.

Lemma requests_go_to_the_store_witness :
  exists run,
    snd (POST repo_world (sample_request "A=1") []) = run
    /\ forall q, In (EvFetch q) run ->
                 startsWith "https://api.github.com" (url q) = true
                 /\ In ("Authorization", "token t0ken") (headers q)
                 /\ (method q = GET <-> body q = None).
Proof.
  exact (requests_go_to_the_store repo_world (sample_request "A=1")
           "octo/site" "t0ken" "A=1" [] eq_refl).
Defined.

Section MoreLoopFacts.

Lemma obj_get_of_In (o : object) (k v : string) :
  NoDup (map fst o) -> In (k, v) o -> obj_get o k = Some v.
Proof.
  induction o as [|[k' v'] o IH]; simpl; intros Hnd Hin; [contradiction|].
  inversion Hnd as [|? ? Hk' Hrest]; subst.
  destruct Hin as [E|Hin].
  - injection E as -> ->. now rewrite String.eqb_refl.
  - destruct (String.eqb_spec k' k) as [->|_]; [|now apply IH].
    exfalso. apply Hk'. change k with (fst (k, v)). now apply in_map.
Qed.

End MoreLoopFacts.

(** X16. Key discovery sends at most two requests and no write, and it
    contacts the organization endpoint only after the repository lookup
    has answered 404. *)
Theorem organisation_lookup_only_after_not_found (w : world)
    (repo pat : string) (log : list event) :
  exists more,
    snd (getPublicKey w repo pat log) = (log ++ more)%list
    /\ writes more = []
    /\ (List.length (filter (fun e => match e with
                                      | EvFetch _ => true
                                      | _ => false
                                      end) more) <= 2)%nat
    /\ (In (EvFetch (org_key_request (org_of repo) pat)) more ->
        exists r1,
          fetch w (log ++ [EvGetPublicKey repo]) (repo_key_request repo pat)
          = Returned r1
          /\ status r1 = 404%Z).
Proof.
  unfold getPublicKey, bind, emit, do_fetch, await, key_info_of, throw, ret.
  destruct (fetch w _ (repo_key_request repo pat)) as [r1|e1].
  - destruct (json r1) as [d1|e1].
    + destruct (status r1 =? 404)%Z eqn:S1.
      * apply Z.eqb_eq in S1.
        destruct (fetch w _ (org_key_request (org_of repo) pat)) as [r2|e2];
          [destruct (json r2) as [[|k i]|e2];
           [destruct (status r2 =? 404)%Z| destruct (status r2 =? 404)%Z|]|];
          simpl; rewrite <- !app_assoc; eexists;
          (split; [reflexivity|]); (split; [reflexivity|]);
          (split; [simpl; lia|]); intros _; now exists r1.
      * destruct d1; simpl; rewrite <- !app_assoc; eexists;
          (split; [reflexivity|]); (split; [reflexivity|]);
          (split; [simpl; lia|]); intros [H|[H|[]]]; discriminate H.
    + simpl; rewrite <- !app_assoc; eexists;
        (split; [reflexivity|]); (split; [reflexivity|]);
        (split; [simpl; lia|]); intros [H|[H|[]]]; discriminate H.
  - simpl; rewrite <- !app_assoc; eexists;
      (split; [reflexivity|]); (split; [reflexivity|]);
      (split; [simpl; lia|]); intros [H|[H|[]]]; discriminate H.
Qed.

(** X17. When the repository lookup answers with a key, every write of
    the run goes to the repository-scoped URL of a key of the parsed
    object, with a body that carries the key identifier and no visibility
    field; the run consists of the probe, the repository lookup, the
    parsing and the work per key. *)
Theorem repository_scope_writes (w : world) (req : next_request)
    (repo pat envText : string) (log0 : list event)
    (probe r1 : response) (pk kid : option string) :
  parseFormData req log0 = (Returned (repo, pat, envText), log0) ->
  fetch w log0 (probe_request repo pat) = Returned probe ->
  status probe <> 404%Z ->
  let log1 := (log0 ++ [EvFetch (probe_request repo pat)])%list in
  fetch w (log1 ++ [EvGetPublicKey repo]) (repo_key_request repo pat)
  = Returned r1 ->
  status r1 <> 404%Z ->
  json r1 = Returned (JsonObject pk kid) ->
  exists more,
    snd (POST w req log0)
    = (log0 ++ [EvFetch (probe_request repo pat); EvGetPublicKey repo;
                EvFetch (repo_key_request repo pat);
                EvParseEnvContent envText] ++ more)%list
    /\ forall q,
         In (EvFetch q) more ->
         exists key c,
           In key (map fst (Object_entries (parseEnvContent envText)))
           /\ method q = PUT
           /\ url q = api ++ "/repos/" ++ repo ++ "/actions/secrets/" ++ key
           /\ body q = Some {| encrypted_value := c; key_id := kid;
                               visibility := None |}.
Proof.
  intros Hform Hprobe Hstatus log1 H1 S1 J1.
  pose proof (getPublicKey_repo w repo pat log1 r1 pk kid H1 S1 J1) as Hkey.
  rewrite (POST_after_probe w req repo pat envText log0 probe
             Hform Hprobe Hstatus).
  fold log1. rewrite Hkey.
  set (keyInfo := {| publicKey := pk; keyId := kid; isOrg := false |}).
  match goal with
  | |- context [process_secrets w repo pat keyInfo ?es ?acc ?l] =>
      destruct (process_secrets_total w repo pat keyInfo es acc l)
        as [rs [more [Hrun [_ [_ [Hq _]]]]]]
  end.
  rewrite Hrun. simpl snd. exists more. split.
  - unfold log1. rewrite <- !app_assoc. reflexivity.
  - intros q Hin. destruct (Hq q Hin) as [key [c [Hkeyin ->]]].
    exists key, c. repeat split. assumption.
Qed.

Lemma repository_scope_writes_witness :
  exists more,
    snd (POST repo_world (sample_request "A=1") [])
    = ([EvFetch (probe_request "octo/site" "t0ken");
        EvGetPublicKey "octo/site";
        EvFetch (repo_key_request "octo/site" "t0ken");
        EvParseEnvContent "A=1"] ++ more)%list
    /\ forall q,
         In (EvFetch q) more ->
         exists key c,
           In key ["A"]
           /\ method q = PUT
           /\ url q = "https://api.github.com/repos/octo/site/actions/secrets/"
                      ++ key
           /\ body q = Some {| encrypted_value := c; key_id := Some "568250";
                               visibility := None |}.
Proof.
  apply (repository_scope_writes repo_world (sample_request "A=1")
           "octo/site" "t0ken" "A=1" []
           (answer 200 sample_key) (answer 200 sample_key)
           (Some "a2V5") (Some "568250"));
    try reflexivity; discriminate.
Defined.

(** X19. When the encryption of a value throws, no request is sent for
    that key: the iteration logs the call and the encryption only, adds
    the key to the failed keys and records the message of the error. *)
Theorem encryption_failure_sends_nothing (w : world) (repo pat : string)
    (keyInfo : key_info) (acc : loop_state) (key value : string)
    (log : list event) (e : thrown) :
  sodium_seal w (log ++ [EvSetSecret key]) value (publicKey keyInfo)
  = Thrown e ->
  process_secret w repo pat keyInfo acc (key, value) log
  = (Returned {| results :=
                   (results acc
                    ++ [{| r_key := key; r_success := false;
                           r_status := None; r_statusText := None;
                           r_response := None;
                           r_error := Some (error_message e) |}])%list;
                 failedSecrets := (failedSecrets acc ++ [key])%list;
                 successSecrets := successSecrets acc |},
     (log ++ [EvSetSecret key;
              EvEncryptValue value (publicKey keyInfo)])%list).
Proof.
  intros Hseal. rewrite process_secret_run, setSecret_run. cbv zeta.
  rewrite Hseal. rewrite <- app_assoc. reflexivity.
Qed.

Lemma encryption_failure_sends_nothing_witness :
  process_secret unsealed_world "octo/site" "t0ken" (sample_key_info false)
    initial_loop_state ("A", "1") []
  = (Returned {| results :=
                   [{| r_key := "A"; r_success := false;
                       r_status := None; r_statusText := None;
                       r_response := None;
                       r_error := Some "invalid public key" |}];
                 failedSecrets := ["A"];
                 successSecrets := [] |},
     [EvSetSecret "A"; EvEncryptValue "1" (Some "a2V5")]).
Proof.
  exact (encryption_failure_sends_nothing unsealed_world "octo/site" "t0ken"
           (sample_key_info false) initial_loop_state "A" "1" []
           (ThrownError "invalid public key") eq_refl).
Defined.

(** X20. When the store answers a write, the status alone decides: the
    key succeeds exactly when the status is 201 or 204, so that any other
    status, 200 included, makes it a failed key; a body that cannot be
    read changes nothing to that and is recorded as a fixed text. *)
Theorem status_decides_the_outcome (w : world) (repo pat : string)
    (keyInfo : key_info) (acc : loop_state) (key value : string)
    (log : list event) (c : string) (r : response) :
  sodium_seal w (log ++ [EvSetSecret key]) value (publicKey keyInfo)
  = Returned c ->
  fetch w ((log ++ [EvSetSecret key])
           ++ [EvEncryptValue value (publicKey keyInfo)])
        (write_request repo pat key keyInfo c)
  = Returned r ->
  exists acc',
    fst (process_secret w repo pat keyInfo acc (key, value) log)
    = Returned acc'
    /\ ((status r = 201 \/ status r = 204)%Z ->
        successSecrets acc' = (successSecrets acc ++ [key])%list
        /\ failedSecrets acc' = failedSecrets acc)
    /\ (status r <> 201%Z -> status r <> 204%Z ->
        failedSecrets acc' = (failedSecrets acc ++ [key])%list
        /\ successSecrets acc' = successSecrets acc)
    /\ exists entry,
         results acc' = (results acc ++ [entry])%list
         /\ r_key entry = key
         /\ r_status entry = Some (status r)
         /\ r_error entry = None
         /\ r_response entry
            = Some match text r with
                   | Returned t => t
                   | Thrown _ => "Failed to read response body"
                   end.
Proof.
  intros Hseal Hfetch.
  rewrite process_secret_run, setSecret_run. cbv zeta.
  rewrite Hseal, Hfetch. cbn [fst].
  eexists. split; [reflexivity|].
  unfold extend, entry_of, result_of_response.
  cbn [r_success r_key ss_success successSecrets failedSecrets results].
  split; [|split].
  - intros [S|S]; rewrite S; split; reflexivity.
  - intros S1 S2. apply Z.eqb_neq in S1, S2. rewrite S1, S2. split; reflexivity.
  - eexists. split; [reflexivity|]. repeat split.
Qed.

Lemma status_decides_the_outcome_witness :
  exists acc',
    fst (process_secret (unreadable_world 201) "octo/site" "t0ken"
           (sample_key_info false) initial_loop_state ("A", "1") [])
    = Returned acc'
    /\ successSecrets acc' = ["A"] /\ failedSecrets acc' = [].
Proof.
  destruct (status_decides_the_outcome (unreadable_world 201)
              "octo/site" "t0ken" (sample_key_info false)
              initial_loop_state "A" "1" [] "sealed:1"
              {| status := 201; statusText := EmptyString;
                 text := Thrown ThrownOther; json := Thrown ThrownOther |}
              eq_refl eq_refl)
    as [acc' [Hrun [Hok _]]].
  exists acc'. split; [exact Hrun|]. apply Hok. now left.
Defined.

(** X21. The organization of a run is the text of the repository
    identifier before its first slash, and the whole identifier when it
    has no slash; the organization-scoped URLs are built from it. *)
Theorem organisation_is_first_segment (owner rest key : string) :
  all_chars (fun c => negb (Ascii.eqb c "/")) owner = true ->
  org_of (owner ++ "/" ++ rest) = owner
  /\ org_of owner = owner
  /\ secret_url (owner ++ "/" ++ rest) key true
     = "https://api.github.com/orgs/" ++ owner ++ "/actions/secrets/" ++ key.
Proof.
  intros Howner.
  assert (H1 : org_of (owner ++ "/" ++ rest) = owner)
    by (apply (hd_split "/" owner rest Howner)).
  repeat split.
  - exact H1.
  - apply (hd_split_none "/" owner Howner).
  - unfold secret_url. now rewrite H1.
Qed.

Lemma organisation_is_first_segment_witness :
  org_of ("octo" ++ "/" ++ "site/extra") = "octo".
Proof.
  apply (organisation_is_first_segment "octo" "site/extra" "A" eq_refl).
Defined.

(** * What a run does per key *)

Section RunFacts.

Variable w : world.
Variables repo pat : string.
Variable keyInfo : key_info.

(** The loop, its results, its log and the outcome of each call. *)
Lemma process_secrets_run (entries : list (string * string)) :
  forall (acc : loop_state) (log : list event),
  exists rs,
    process_secrets w repo pat keyInfo entries acc log
    = (Returned (fold_left extend rs acc),
       (log ++ loop_events w repo pat keyInfo entries log)%list)
    /\ map r_key rs = map fst entries
    /\ map r_success rs = loop_outcomes w repo pat keyInfo entries log.
Proof.
  induction entries as [|[key value] rest IH]; intros acc log.
  - exists []. simpl. unfold ret. now rewrite app_nil_r.
  - destruct (process_secret_total w repo pat keyInfo acc key value log)
      as [r [Hr [Hk Hs]]].
    destruct (IH (extend acc r)
                (log ++ iteration_events w repo pat keyInfo key value log)%list)
      as [rs [Hrs [Hkeys Hout]]].
    exists (r :: rs). split; [|split].
    + cbn [process_secrets loop_events]. unfold bind. rewrite Hr, Hrs.
      cbn [fold_left]. now rewrite app_assoc.
    + simpl. congruence.
    + cbn [map loop_outcomes]. rewrite setSecret_log, <- Hs, Hout.
      reflexivity.
Qed.

Lemma loop_events_app (before after : list (string * string))
    (log : list event) :
  loop_events w repo pat keyInfo (before ++ after) log
  = (loop_events w repo pat keyInfo before log
     ++ loop_events w repo pat keyInfo after
          (log ++ loop_events w repo pat keyInfo before log))%list.
Proof.
  revert log. induction before as [|[key value] before IH]; intros log.
  - simpl. now rewrite app_nil_r.
  - cbn [app loop_events]. rewrite IH, <- !app_assoc. reflexivity.
Qed.

Lemma loop_events_calls (entries : list (string * string))
    (log : list event) :
  set_secret_calls (loop_events w repo pat keyInfo entries log)
  = map fst entries.
Proof.
  revert log. induction entries as [|[key value] rest IH]; intros log;
    [reflexivity|].
  cbn [loop_events]. rewrite set_secret_calls_app, iteration_calls, IH.
  reflexivity.
Qed.

Lemma in_set_secret_calls (k : string) (l : list event) :
  In (EvSetSecret k) l -> In k (set_secret_calls l).
Proof.
  intros H. unfold set_secret_calls. apply in_flat_map.
  exists (EvSetSecret k). split; [assumption | now left].
Qed.

Lemma in_writes (q : request) (l : list event) :
  In q (writes l) <-> In (EvFetch q) l /\ method q = PUT.
Proof.
  unfold writes. rewrite in_flat_map. split.
  - intros [e [He Hq]]. destruct e as [q'| | | |]; try contradiction.
    destruct (method q') eqn:Hm; [contradiction|].
    destruct Hq as [<-|[]]. now split.
  - intros [Hin Hm]. exists (EvFetch q). split; [assumption|].
    rewrite Hm. now left.
Qed.

(** The fetches of the loop are write requests for keys of the
    entries. *)
Lemma loop_events_fetches (entries : list (string * string))
    (log : list event) (q : request) :
  In (EvFetch q) (loop_events w repo pat keyInfo entries log) ->
  exists key c, In key (map fst entries)
                /\ q = write_request repo pat key keyInfo c.
Proof.
  revert log. induction entries as [|[key value] rest IH]; intros log Hin;
    [contradiction|].
  cbn [loop_events] in Hin. apply in_app_or in Hin. destruct Hin as [Hin|Hin].
  - destruct (iteration_fetches w repo pat keyInfo _ _ _ _ Hin) as [c Hc].
    exists key, c. split; [now left | assumption].
  - destruct (IH _ Hin) as [k [c [Hk Hc]]].
    exists k, c. split; [now right | assumption].
Qed.

Lemma string_app_inv_head (p a b : string) : p ++ a = p ++ b -> a = b.
Proof.
  induction p as [|c p IH]; simpl; intros H; [assumption|].
  injection H as H. now apply IH.
Qed.

(** The URL of a secret identifies its key. *)
Lemma secret_url_inj (k1 k2 : string) (org : bool) :
  secret_url repo k1 org = secret_url repo k2 org -> k1 = k2.
Proof.
  unfold secret_url. destruct org; intros H;
    repeat (apply string_app_inv_head in H); exact H.
Qed.

Lemma writes_to_app (key : string) (l1 l2 : list event) :
  writes_to repo key keyInfo (l1 ++ l2)
  = (writes_to repo key keyInfo l1 ++ writes_to repo key keyInfo l2)%list.
Proof. unfold writes_to. now rewrite writes_app, filter_app. Qed.

Lemma writes_to_other (key : string) (entries : list (string * string))
    (log : list event) :
  ~ In key (map fst entries) ->
  writes_to repo key keyInfo (loop_events w repo pat keyInfo entries log) = [].
Proof.
  intros Hkey. unfold writes_to.
  match goal with |- filter ?f ?l = [] =>
    destruct (filter f l) as [|q rest] eqn:E; [reflexivity|];
    assert (Hq : In q (filter f l)) by (rewrite E; now left)
  end.
  apply filter_In in Hq. destruct Hq as [Hq Hurl].
  apply in_writes in Hq. destruct Hq as [Hq _].
  destruct (loop_events_fetches _ _ _ Hq) as [k [c [Hk ->]]].
  apply String.eqb_eq in Hurl. cbn [write_request url] in Hurl.
  apply secret_url_inj in Hurl. subst k. contradiction.
Qed.

Lemma writes_to_iteration (key value : string) (log : list event) :
  writes_to repo key keyInfo
    (iteration_events w repo pat keyInfo key value log)
  = match sodium_seal w (log ++ [EvSetSecret key]) value
            (publicKey keyInfo) with
    | Returned c => [write_request repo pat key keyInfo c]
    | Thrown _ => []
    end.
Proof.
  unfold writes_to, iteration_events. cbv zeta.
  destruct (sodium_seal w _ value (publicKey keyInfo)); [|reflexivity].
  cbn [writes flat_map write_request method app filter url].
  now rewrite String.eqb_refl.
Qed.

(** The call for one entry within the loop: what precedes it has no call
    for the same key, the call is followed by the encryption and, when
    the encryption returned, by the write; these are the only writes to
    the secret of that key. *)
Lemma loop_call (before after : list (string * string)) (key value : string)
    (log : list event) :
  NoDup (map fst (before ++ (key, value) :: after)) ->
  let mid := loop_events w repo pat keyInfo before log in
  let sealed := sodium_seal w ((log ++ mid) ++ [EvSetSecret key]) value
                            (publicKey keyInfo) in
  exists post,
    loop_events w repo pat keyInfo (before ++ (key, value) :: after) log
    = (mid ++ EvSetSecret key
           :: EvEncryptValue value (publicKey keyInfo)
           :: match sealed with
              | Returned c =>
                  EvFetch (write_request repo pat key keyInfo c) :: post
              | Thrown _ => post
              end)%list
    /\ ~ In (EvSetSecret key) mid
    /\ writes_to repo key keyInfo
         (loop_events w repo pat keyInfo (before ++ (key, value) :: after) log)
       = match sealed with
         | Returned c => [write_request repo pat key keyInfo c]
         | Thrown _ => []
         end.
Proof.
  intros Hnd mid sealed.
  rewrite map_app in Hnd. cbn [map fst] in Hnd.
  assert (Hbefore : ~ In key (map fst before)).
  { intros Hin. apply NoDup_remove_2 in Hnd. apply Hnd.
    apply in_or_app. now left. }
  assert (Hafter : ~ In key (map fst after)).
  { intros Hin. apply NoDup_remove_2 in Hnd. apply Hnd.
    apply in_or_app. now right. }
  exists (loop_events w repo pat keyInfo after
            ((log ++ mid)
             ++ iteration_events w repo pat keyInfo key value (log ++ mid))).
  split; [|split].
  - rewrite loop_events_app. fold mid. cbn [loop_events].
    unfold iteration_events at 1. cbv zeta. fold sealed.
    destruct sealed; reflexivity.
  - intros Hin. apply in_set_secret_calls in Hin.
    unfold mid in Hin. rewrite loop_events_calls in Hin. contradiction.
  - subst mid sealed. rewrite loop_events_app. cbn [loop_events].
    rewrite !writes_to_app, writes_to_iteration.
    rewrite (writes_to_other key before log Hbefore).
    rewrite (writes_to_other key after _ Hafter).
    now rewrite app_nil_r.
Qed.

Lemma keys_with_results (rs : list result_entry) :
  map r_key (filter (fun r => negb (r_success r)) rs)
  = keys_with false (map r_key rs) (map r_success rs).
Proof.
  unfold keys_with. induction rs as [|r rs IH]; [reflexivity|].
  cbn [map combine filter snd]. destruct (r_success r); simpl; congruence.
Qed.

End RunFacts.

Section RunOfTheHandler.

Variable w : world.

(** The handler in a run that reaches the loop: its response is the
    report of the loop and its log that of the loop. *)
Lemma POST_run (req : next_request) (repo pat envText : string)
    (log0 log1 : list event) (probe : response) (keyInfo : key_info) :
  parseFormData req log0 = (Returned (repo, pat, envText), log0) ->
  fetch w log0 (probe_request repo pat) = Returned probe ->
  status probe <> 404%Z ->
  getPublicKey w repo pat (log0 ++ [EvFetch (probe_request repo pat)])%list
  = (Returned keyInfo, log1) ->
  let entries := Object_entries (parseEnvContent envText) in
  let log2 := (log1 ++ [EvParseEnvContent envText])%list in
  exists rs,
    POST w req log0
    = (Returned (report (fold_left extend rs initial_loop_state)),
       (log2 ++ loop_events w repo pat keyInfo entries log2)%list)
    /\ map r_key rs = map fst entries
    /\ map r_success rs = loop_outcomes w repo pat keyInfo entries log2.
Proof.
  intros Hform Hprobe Hstatus Hkey entries log2.
  destruct (process_secrets_run w repo pat keyInfo entries
              initial_loop_state log2) as [rs [Hrun [Hkeys Hout]]].
  exists rs. split; [|split; assumption].
  rewrite (POST_after_probe w req repo pat envText log0 probe
             Hform Hprobe Hstatus), Hkey.
  fold entries. fold log2. now rewrite Hrun.
Qed.

End RunOfTheHandler.




(** X6. Round trip: the text with one line KEY=VALUE per pair, for pairs
    with distinct keys of the class other than [__proto__] and plain
    values, parses to an object that binds every key to its value and
    whose entries are exactly these pairs; the entries are enumerated in
    the order of the pairs when no key is an array index (array-index
    keys are enumerated first, in ascending order). *)
Theorem plain_file_round_trip (entries : list (string * string)) :
  Forall plain_entry entries ->
  Forall (fun kv => fst kv <> "__proto__") entries ->
  NoDup (map fst entries) ->
  let secrets := parseEnvContent (render entries) in
  Permutation (Object_entries secrets) entries
  /\ (forall k v, In (k, v) entries -> obj_get secrets k = Some v)
  /\ (forall k, ~ In k (map fst entries) -> obj_get secrets k = None)
  /\ (Forall (fun e => is_index_entry e = false) entries ->
      Object_entries secrets = entries).
Proof.
  intros Hplain Hproto Hnd secrets.
  assert (E : secrets = entries)
    by (apply plain_file_properties; assumption).
  rewrite E. split; [apply Object_entries_perm|]. split; [|split].
  - intros k v Hin. now apply obj_get_of_In.
  - intros k Hk. destruct (obj_get entries k) as [v|] eqn:Hv; [|reflexivity].
    exfalso. apply Hk. apply obj_get_In. now exists v.
  - apply Object_entries_names.
Qed.

Lemma plain_file_round_trip_witness :
  Object_entries
    (parseEnvContent (render [("API_URL", "https://example.org/v1?x=1");
                              ("EMPTY", EmptyString); ("retries", "3")]))
  = [("API_URL", "https://example.org/v1?x=1");
     ("EMPTY", EmptyString); ("retries", "3")].
Proof.
  apply plain_file_round_trip.
  - repeat constructor.
  - repeat constructor; discriminate.
  - repeat constructor; simpl; intuition discriminate.
  - repeat constructor.
Defined.

(** X13. In a run that reaches the loop the handler answers with status
    200 and a report fixed by the outcomes of the calls of [setSecret],
    taken in the order of the enumeration of the parsed object: when
    every call returned a success, success and all the keys; otherwise
    failure and the failed keys, which are exactly the keys whose call
    threw or returned without success, in that order. *)
Theorem report_lists_keys (w : world) (req : next_request)
    (repo pat envText : string) (log0 log1 : list event) (probe : response)
    (keyInfo : key_info) :
  parseFormData req log0 = (Returned (repo, pat, envText), log0) ->
  fetch w log0 (probe_request repo pat) = Returned probe ->
  status probe <> 404%Z ->
  getPublicKey w repo pat (log0 ++ [EvFetch (probe_request repo pat)])%list
  = (Returned keyInfo, log1) ->
  let entries := Object_entries (parseEnvContent envText) in
  let keys := map fst entries in
  let outcomes :=
    loop_outcomes w repo pat keyInfo entries
                  (log1 ++ [EvParseEnvContent envText]) in
  let failed := keys_with false keys outcomes in
  fst (POST w req log0)
  = Returned
      {| http_status := 200;
         payload :=
           match failed with
           | [] => {| success := true; variables := keys |}
           | _ :: _ => {| success := false; variables := failed |}
           end |}
  /\ List.length outcomes = List.length keys
  /\ (failed = [] <-> Forall (fun b => b = true) outcomes).
Proof.
  intros Hform Hprobe Hstatus Hkey entries keys outcomes failed.
  destruct (POST_run w req repo pat envText log0 log1 probe keyInfo
              Hform Hprobe Hstatus Hkey) as [rs [HPOST [Hkeys Hout]]].
  fold entries in HPOST, Hkeys, Hout. fold outcomes in Hout.
  pose proof (extend_failed rs initial_loop_state) as Hf.
  pose proof (extend_success rs initial_loop_state) as Hs.
  cbn [initial_loop_state failedSecrets successSecrets app] in Hf, Hs.
  rewrite keys_with_results, Hkeys, Hout in Hf. fold keys failed in Hf.
  split; [|split].
  - rewrite HPOST. cbn [fst]. unfold report. rewrite Hf, Hs.
    destruct failed as [|k rest] eqn:Hfailed; [|reflexivity].
    cbn [List.length Nat.eqb]. do 3 f_equal.
    assert (Hnone : filter (fun r => negb (r_success r)) rs = []).
    { apply (map_nil_inv r_key).
      rewrite keys_with_results, Hkeys, Hout. exact Hfailed. }
    now rewrite (filter_all _ _ Hnone).
  - rewrite <- Hout. unfold keys. rewrite <- Hkeys.
    now rewrite !length_map.
  - unfold failed, keys. rewrite <- Hkeys, <- Hout, <- keys_with_results.
    clear. induction rs as [|r rs IH]; simpl.
    + split; [constructor | reflexivity].
    + destruct (r_success r); simpl.
      * rewrite IH. split; [now constructor|].
        intros H. now inversion H.
      * split; [discriminate|]. intros H. inversion H. discriminate.
Qed.

(** A run of X13: the store refuses B and creates A and C. *)
Lemma report_lists_keys_witness :
  fst (POST store_without_B
         (sample_request ("A=1" ++ nl ++ "B=2" ++ nl ++ "C=3")) [])
  = Returned {| http_status := 200;
                payload := {| success := false; variables := ["B"] |} |}.
Proof.
  apply (proj1 (report_lists_keys store_without_B
                  (sample_request ("A=1" ++ nl ++ "B=2" ++ nl ++ "C=3"))
                  "octo/site" "t0ken" ("A=1" ++ nl ++ "B=2" ++ nl ++ "C=3") []
                  [EvFetch (probe_request "octo/site" "t0ken");
                   EvGetPublicKey "octo/site";
                   EvFetch (repo_key_request "octo/site" "t0ken")]
                  (answer 200 recipient_key) (recipient_key_info false)
                  eq_refl eq_refl ltac:(discriminate) eq_refl)).
Defined.

(** X18. In a run that reaches the loop, every write request made after
    the parsing is the write of a key of the parsed object, and for every
    entry of the parsed object the run holds exactly one call of
    [setSecret] for its key; the writes to the secret of that key are the
    single request that carries the ciphertext returned by the
    encryption of the entry's value at that call, under the key found by
    key discovery, and none at all when that encryption threw. *)
Theorem writes_carry_ciphertext (w : world) (req : next_request)
    (repo pat envText : string) (log0 log1 : list event) (probe : response)
    (keyInfo : key_info) :
  parseFormData req log0 = (Returned (repo, pat, envText), log0) ->
  fetch w log0 (probe_request repo pat) = Returned probe ->
  status probe <> 404%Z ->
  getPublicKey w repo pat (log0 ++ [EvFetch (probe_request repo pat)])%list
  = (Returned keyInfo, log1) ->
  let entries := Object_entries (parseEnvContent envText) in
  let log2 := (log1 ++ [EvParseEnvContent envText])%list in
  exists run,
    snd (POST w req log0) = (log2 ++ run)%list
    /\ (forall q, In q (writes run) ->
                  exists key c, In key (map fst entries)
                                /\ q = write_request repo pat key keyInfo c)
    /\ (forall key value,
           In (key, value) entries ->
           exists mid post,
             run = (mid ++ EvSetSecret key :: post)%list
             /\ ~ In (EvSetSecret key) mid
             /\ ~ In (EvSetSecret key) post
             /\ writes_to repo key keyInfo run
                = match sodium_seal w ((log2 ++ mid) ++ [EvSetSecret key])
                                    value (publicKey keyInfo) with
                  | Returned c => [write_request repo pat key keyInfo c]
                  | Thrown _ => []
                  end).
Proof.
  intros Hform Hprobe Hstatus Hkey entries log2.
  destruct (POST_run w req repo pat envText log0 log1 probe keyInfo
              Hform Hprobe Hstatus Hkey) as [rs [HPOST _]].
  fold entries log2 in HPOST.
  exists (loop_events w repo pat keyInfo entries log2).
  split; [now rewrite HPOST|]. split.
  - intros q Hq. apply in_writes in Hq. destruct Hq as [Hq _].
    now apply (loop_events_fetches w repo pat keyInfo entries log2).
  - intros key value Hin.
    destruct (in_split _ _ Hin) as [before [after Hsplit]].
    assert (Hnd : NoDup (map fst entries))
      by apply Object_entries_NoDup, parseEnvContent_NoDup.
    rewrite Hsplit in Hnd |- *.
    destruct (loop_call w repo pat keyInfo before after key value log2 Hnd)
      as [post [Hrun [Hnot Hw]]].
    match type of Hrun with
    | _ = (_ ++ _ :: ?t)%list => remember t as tail eqn:Htail
    end.
    exists (loop_events w repo pat keyInfo before log2), tail.
    split; [exact Hrun|]. split; [exact Hnot|]. split; [|exact Hw].
    intros Hpost.
    assert (Hcalls : set_secret_calls
                       (loop_events w repo pat keyInfo
                          (before ++ (key, value) :: after) log2)
                     = map fst (before ++ (key, value) :: after))
      by apply loop_events_calls.
    rewrite Hrun, set_secret_calls_app in Hcalls.
    change (set_secret_calls (EvSetSecret key :: tail))
      with (key :: set_secret_calls tail) in Hcalls.
    rewrite loop_events_calls, map_app in Hcalls. cbn [map fst] in Hcalls.
    apply app_inv_head in Hcalls. injection Hcalls as Hcalls.
    apply in_set_secret_calls in Hpost. rewrite Hcalls in Hpost.
    rewrite map_app in Hnd. cbn [map fst] in Hnd.
    apply NoDup_remove_2 in Hnd. apply Hnd. apply in_or_app. now right.
Qed.

(** A run of X18: two secrets, one write each. *)
Lemma writes_carry_ciphertext_witness :
  exists run,
    snd (POST store_without_B (sample_request ("A=1" ++ nl ++ "B=2")) [])
    = ([EvFetch (probe_request "octo/site" "t0ken");
        EvGetPublicKey "octo/site";
        EvFetch (repo_key_request "octo/site" "t0ken");
        EvParseEnvContent ("A=1" ++ nl ++ "B=2")] ++ run)%list
    /\ map url (writes_to "octo/site" "B" (recipient_key_info false) run)
       = ["https://api.github.com/repos/octo/site/actions/secrets/B"].
Proof.
  destruct (writes_carry_ciphertext store_without_B
              (sample_request ("A=1" ++ nl ++ "B=2"))
              "octo/site" "t0ken" ("A=1" ++ nl ++ "B=2") []
              [EvFetch (probe_request "octo/site" "t0ken");
               EvGetPublicKey "octo/site";
               EvFetch (repo_key_request "octo/site" "t0ken")]
              (answer 200 recipient_key) (recipient_key_info false)
              eq_refl eq_refl ltac:(discriminate) eq_refl)
    as [run [Hrun [_ Hper]]].
  exists run. split; [exact Hrun|].
  destruct (Hper "B" "2" (or_intror (or_introl eq_refl)))
    as [mid [post [_ [_ [_ Hw]]]]].
  rewrite Hw. reflexivity.
Defined.
